(** * waypoint, internal/core/app.go: the application-scoped execution core

    A shallow embedding of [App], of its constructor [newApp] and of its
    methods [Close], [Ref], [mergeLabels], [callDynamicFunc] and
    [initMappers], followed by the properties of the specification that
    concern them.

    Go code runs in a world (the observable actions performed so far, the
    backing arrays of the converter slices, a counter for the objects the
    collaborators create) and either returns or panics.  The collaborators
    that live outside app.go (the plugin system, go-argmapper, reflect,
    path/filepath, the data directory, the terminal UI) are not given an
    implementation: their answers are read from an environment [Env], and
    every theorem holds for all environments. *)

From Stdlib Require Import Strings.Ascii Strings.String.
From stdpp Require Import gmap strings list fin_maps.

Open Scope string_scope.
Open Scope list_scope.
Open Scope stdpp_scope.

(** ** Values of the Go runtime *)

(** A [reflect.Type]: a type descriptor, identified by its number. *)
Inductive rtype := RType (id : nat).

(** A value of type [interface{}]: nil, or a dynamic type and a payload. *)
Inductive iface :=
| Nil
| Boxed (t : rtype) (v : nat).

(** [reflect.TypeOf]: the dynamic type, the nil [Type] for a nil interface. *)
Definition reflect_TypeOf (i : iface) : option rtype :=
  match i with
  | Nil => None
  | Boxed t _ => Some t
  end.

(** [codes.Code] of google.golang.org/grpc, as far as app.go uses it. *)
Inductive Code := FailedPrecondition | OtherCode (n : nat).

(** A non-nil [error]; the nil error is [None] of [option error]. *)
Inductive error :=
| OpaqueError (id : nat)
| StatusError (c : Code) (msg : string).

(** [status.Errorf(c, "operation expected result type %s, got %s", a, b)] *)
Definition status_Errorf_expected (c : Code) (a b : string) : error :=
  StatusError c ("operation expected result type " +:+ a +:+ ", got " +:+ b).

(** A [*argmapper.Func]. *)
Inductive FuncPtr := NilFunc | FuncAt (id : nat).

(** ** Slices

    A slice is a view [ptr, len, cap] on a backing array; the arrays live
    in the heap of the world.  Views start at the first cell of their
    array.  A nil slice has no array.  Arrays of size zero are given an
    address of their own: Go leaves their identity open, and nothing can
    be written through them. *)
Record slice := Slice { s_ptr : option nat; s_len : nat; s_cap : nat }.

Definition nil_slice : slice := Slice None 0 0.

Definition backing (h : gmap nat (list FuncPtr)) (s : slice) : list FuncPtr :=
  match s_ptr s with
  | Some p => default [] (h !! p)
  | None => []
  end.

(** The elements of a slice: the first [len] cells of its array. *)
Definition elems (h : gmap nat (list FuncPtr)) (s : slice) : list FuncPtr :=
  take (s_len s) (backing h s).

(** ** The model of the surrounding packages *)

Record Context := { ctx_id : nat }.
Record WaypointClient := { client_id : nat }.
Record JobInfo := { job_id : nat }.
Record TerminalUI := { ui_id : nat }.
Record DatadirProject := { pdir_id : nat }.
Record DatadirApp := { adir_id : nat }.
Record Ref_Workspace := { Workspace : string }.
Record Ref_Application := { Application : string; Project_ : string }.

(** [hclog.Logger]: the names it was given, outermost first. *)
Record Logger := { log_names : list string }.

Definition Logger_Named (l : Logger) (n : string) : Logger :=
  {| log_names := log_names l ++ [n] |}.

(** [component.Source] *)
Record Source := { src_App : string; src_Path : string }.

(** [component.LabelSet] *)
Record LabelSet := { ls_Labels : gmap string string }.

(** [factory.Factory]: the names it has registered, in the order
    [Registered] returns them. *)
Record Factory := { Registered : list string }.

(** [config.App], the fields app.go reads. *)
Record ConfigApp := {
  cfg_Name : string;
  cfg_Path : string;
  cfg_Labels : gmap string string
}.

(** [Project], the fields app.go reads.  [p_labels] are the project-wide
    default labels of the label merger. *)
Record Project := {
  p_name : string;
  p_root : string;
  p_client : WaypointClient;
  p_jobInfo : JobInfo;
  p_logger : Logger;
  p_workspace : Ref_Workspace;
  p_UI : TerminalUI;
  p_dir : DatadirProject;
  p_mappers : slice;
  p_factories : gmap nat Factory;
  p_labels : gmap string string
}.

Definition WorkspaceRef (p : Project) : Ref_Workspace := p_workspace p.

(** [*Component], the field app.go reads. *)
Record Component := { c_labels : gmap string string }.

(** [appComponent]: the metadata of a component, its data directory, its
    labels before the merge with the parent labels, and its hooks keyed by
    their When value. *)
Record appComponent := {
  ac_Info : nat;
  ac_Dir : nat;
  ac_Labels : gmap string string;
  ac_Hooks : gmap string (list nat)
}.

(** A started plugin, [*plugin.Instance]: the process and the converters
    it exports. *)
Record PluginInstance := { inst_pid : nat; Mappers : list FuncPtr }.

(** The values [argmapper.Typed] is given by [callDynamicFunc]. *)
Inductive TypedValue :=
| TContext (c : Context)
| TLogger (l : Logger)
| TSource (s : Source)
| TJobInfo (j : JobInfo)
| TDir (d : option DatadirApp)
| TUI (u : TerminalUI).

(** [argmapper.Arg] *)
Inductive Arg :=
| ConverterFunc (fs : list FuncPtr)
| Typed (vs : list TypedValue)
| Named (name : string) (v : LabelSet)
| Extra (id : nat).

(** [argmapper.Result] *)
Record Result := { res_Err : option error; res_out : list iface }.

Inductive CallOutcome :=
| CallReturns (r : Result)
| CallPanics (msg : string).

(** ** Worlds *)

(** What app.go does to the outside, with the answer it got. *)
Inductive Event :=
| EvLogDebug (l : Logger) (msg name : string)
| EvDirApp (name : string) (r : DatadirApp + error)
| EvPluginStarted (pinst : PluginInstance) (name : string)
| EvPluginFailed (name : string) (err : error)
| EvPluginClose (pid : nat)
| EvNewFunc (f : iface) (r : FuncPtr + error)
| EvStatusOpen (u : TerminalUI) (sid : nat)
| EvStatusClose (sid : nat)
| EvCall (f : FuncPtr) (args : list Arg) (o : CallOutcome).

Record World := {
  trace : list Event;
  heap : gmap nat (list FuncPtr);
  next_id : nat
}.

Definition emit (e : Event) (w : World) : World :=
  {| trace := trace w ++ [e]; heap := heap w; next_id := next_id w |}.

Definition set_heap (h : gmap nat (list FuncPtr)) (w : World) : World :=
  {| trace := trace w; heap := h; next_id := next_id w |}.

Definition bump (w : World) : World :=
  {| trace := trace w; heap := heap w; next_id := S (next_id w) |}.

(** ** Go computations: a world in, a return or a panic out *)

Inductive Outcome (A : Type) :=
| Returned (a : A) (w : World)
| Panicked (msg : string) (w : World).
Arguments Returned {A} a w.
Arguments Panicked {A} msg w.

Definition Go (A : Type) : Type := World -> Outcome A.

Definition final {A} (o : Outcome A) : World :=
  match o with
  | Returned _ w => w
  | Panicked _ w => w
  end.

Definition panics {A} (o : Outcome A) : bool :=
  match o with
  | Returned _ _ => false
  | Panicked _ _ => true
  end.

Global Instance Go_ret : MRet Go := fun A a w => Returned a w.

Global Instance Go_bind : MBind Go := fun A B k m w =>
  match m w with
  | Returned a w' => k a w'
  | Panicked msg w' => Panicked msg w'
  end.

Definition panic {A} (msg : string) : Go A := fun w => Panicked msg w.

Definition do_emit (e : Event) : Go unit := fun w => Returned tt (emit e w).

(** [defer cleanup] in front of [body]: the cleanup runs when the body
    returns and when it panics; the panic goes on after it. *)
Definition defer {A} (cleanup : Go unit) (body : Go A) : Go A := fun w =>
  match body w with
  | Returned a w1 =>
      match cleanup w1 with
      | Returned _ w2 => Returned a w2
      | Panicked msg w2 => Panicked msg w2
      end
  | Panicked msg w1 =>
      match cleanup w1 with
      | Returned _ w2 => Panicked msg w2
      | Panicked msg' w2 => Panicked msg' w2
      end
  end.

(** ** The environment

    What the collaborators answer.  The stateful ones are given the trace
    so far, so that an answer may depend on everything that happened
    before. *)
Class Env := {
  (** [component.MapperType] *)
  MapperType : nat;
  (** the capacity the runtime proposes for a grown array, from the old
      capacity and the length needed *)
  growslice : nat -> nat -> nat;
  (** [filepath.Join] of two elements *)
  filepath_Join : string -> string -> string;
  (** [App] of [*datadir.Project] *)
  datadir_App : list Event -> DatadirProject -> string -> DatadirApp + error;
  (** whether the plugin [name] of a kind comes up, and, if it does, the
      converters it exports *)
  plugin_start : list Event -> nat -> Factory -> string -> list FuncPtr + error;
  (** the type assertion of [f] to [*argmapper.Func] *)
  as_Func : iface -> option FuncPtr;
  (** [argmapper.NewFunc] *)
  argmapper_NewFunc : iface -> Logger -> FuncPtr + error;
  (** [Call] of [*argmapper.Func] *)
  argmapper_Call : list Event -> FuncPtr -> list Arg -> CallOutcome;
  (** [Type.Elem]; [None] where reflect panics (a kind without elements) *)
  type_Elem : rtype -> option rtype;
  (** [t.Implements(u)]; [None] where reflect panics ([u] is no interface) *)
  type_Implements : rtype -> rtype -> option bool;
  (** [Type.String] *)
  type_String : rtype -> string
}.

(** A shutdown handle, [func() error]: the change it makes to the world
    and the error it returns. *)
Definition Closer := World -> option error * World.

(** ** App *)

Record App := {
  UI : TerminalUI;
  project : Project;
  config : ConfigApp;
  ref : Ref_Application;
  workspace : Ref_Workspace;
  client : WaypointClient;
  source : Source;
  jobInfo : JobInfo;
  logger : Logger;
  dir : option DatadirApp;
  mappers : slice;
  closers : list Closer
}.

Definition set_source_Path (path : string) (a : App) : App :=
  {| UI := UI a; project := project a; config := config a; ref := ref a;
     workspace := workspace a; client := client a;
     source := {| src_App := src_App (source a); src_Path := path |};
     jobInfo := jobInfo a; logger := logger a; dir := dir a;
     mappers := mappers a; closers := closers a |}.

Definition set_dir (d : option DatadirApp) (a : App) : App :=
  {| UI := UI a; project := project a; config := config a; ref := ref a;
     workspace := workspace a; client := client a; source := source a;
     jobInfo := jobInfo a; logger := logger a; dir := d;
     mappers := mappers a; closers := closers a |}.

Definition set_mappers (s : slice) (a : App) : App :=
  {| UI := UI a; project := project a; config := config a; ref := ref a;
     workspace := workspace a; client := client a; source := source a;
     jobInfo := jobInfo a; logger := logger a; dir := dir a;
     mappers := s; closers := closers a |}.

Definition set_closers (cs : list Closer) (a : App) : App :=
  {| UI := UI a; project := project a; config := config a; ref := ref a;
     workspace := workspace a; client := client a; source := source a;
     jobInfo := jobInfo a; logger := logger a; dir := dir a;
     mappers := mappers a; closers := cs |}.

Section Program.
Context `{E : Env}.

(** ** Slice operations of the runtime *)

(** The composite literal [[]*argmapper.Func{}]: an empty slice on an
    array of its own. *)
Definition slice_lit : Go slice := fun w =>
  let p := fresh (dom (heap w)) in
  Returned (Slice (Some p) 0 0) (set_heap (<[p := []]> (heap w)) w).

(** Reading the elements of a slice, as in [s...]. *)
Definition read_slice (s : slice) : Go (list FuncPtr) := fun w =>
  Returned (elems (heap w) s) w.

(** [append(s, xs...)]: within the capacity the new elements are written
    into the array of [s], behind its length; beyond it a larger array is
    allocated and receives the elements of [s] and the new ones. *)
Definition append (s : slice) (xs : list FuncPtr) : Go slice := fun w =>
  let n := s_len s + length xs in
  if decide (n <= s_cap s) then
    match s_ptr s with
    | Some p =>
        Returned (Slice (Some p) n (s_cap s))
          (set_heap
             (alter (fun arr => take (s_len s) arr ++ xs ++ drop n arr) p (heap w)) w)
    | None => Returned s w
    end
  else
    let c := Nat.max n (growslice (s_cap s) n) in
    let p := fresh (dom (heap w)) in
    Returned (Slice (Some p) n c)
      (set_heap
         (<[p := elems (heap w) s ++ xs ++ replicate (c - n) NilFunc]> (heap w)) w).

(** ** Collaborators, as seen from app.go *)

Definition log_Debug (l : Logger) (msg name : string) : Go unit :=
  do_emit (EvLogDebug l msg name).

(** [p.dir.App(name)] *)
Definition Project_dir_App (d : DatadirProject) (name : string)
  : Go (DatadirApp + error) := fun w =>
  let r := datadir_App (trace w) d name in
  Returned r (emit (EvDirApp name r) w).

(** Modelled from the spec: [App.startPlugin] is declared outside app.go.
    Section 4.2: start(kind, name) starts one plugin process and returns
    its exported converters and a shutdown handle, or an error; it either
    fully succeeds or fails cleanly, with no process left behind.  A
    started process gets an identifier no other object has. *)
Definition startPlugin (ctx : Context) (typ : nat) (f : Factory) (name : string)
  : Go (PluginInstance + error) := fun w =>
  match plugin_start (trace w) typ f name with
  | inr err => Returned (inr err) (emit (EvPluginFailed name err) w)
  | inl ms =>
      let pinst := {| inst_pid := next_id w; Mappers := ms |} in
      Returned (inl pinst) (bump (emit (EvPluginStarted pinst name) w))
  end.

(** [pinst.Close()]: the shutdown of the plugin process. *)
Definition Instance_Close (pinst : PluginInstance) (w : World) : World :=
  emit (EvPluginClose (inst_pid pinst)) w.

(** [a.UI.Status()]: a new status of the UI. *)
Definition UI_Status (u : TerminalUI) : Go nat := fun w =>
  Returned (next_id w) (bump (emit (EvStatusOpen u (next_id w)) w)).

(** [Close] of a [terminal.Status] *)
Definition Status_Close (sid : nat) : Go unit := do_emit (EvStatusClose sid).

(** [argmapper.NewFunc(f, argmapper.Logger(log))] *)
Definition NewFunc (f : iface) (log : Logger) : Go (FuncPtr + error) := fun w =>
  let r := argmapper_NewFunc f log in
  Returned r (emit (EvNewFunc f r) w).

(** [rawFunc.Call(args...)] *)
Definition Func_Call (rawFunc : FuncPtr) (args : list Arg) : Go Result := fun w =>
  let o := argmapper_Call (trace w) rawFunc args in
  match o with
  | CallReturns r => Returned r (emit (EvCall rawFunc args o) w)
  | CallPanics msg => Panicked msg (emit (EvCall rawFunc args o) w)
  end.

(** [callResult.Out(i)]: indexes the outputs. *)
Definition Result_Out (r : Result) (i : nat) : Go iface :=
  match res_out r !! i with
  | Some v => mret v
  | None => panic "index out of range"
  end.

(** [reflect.TypeOf(result).Elem()] *)
Definition Type_Elem (t : option rtype) : Go rtype :=
  match t with
  | None => panic "invalid memory address or nil pointer dereference"
  | Some t =>
      match type_Elem t with
      | Some u => mret u
      | None => panic "reflect: Elem of invalid type"
      end
  end.

(** [rawType.Implements(interfaceType)] *)
Definition Type_Implements (t : option rtype) (u : rtype) : Go bool :=
  match t with
  | None => panic "invalid memory address or nil pointer dereference"
  | Some t =>
      match type_Implements t u with
      | Some b => mret b
      | None => panic "reflect: non-interface type passed to Type.Implements"
      end
  end.

(** [c.labels] for [c : *Component] *)
Definition Component_labels (c : option Component) : Go (gmap string string) :=
  match c with
  | Some c => mret (c_labels c)
  | None => panic "invalid memory address or nil pointer dereference"
  end.

(** ** app.go *)

(** The closure [func() error { pinst.Close(); return nil }].  [pinst] is
    declared in the body of the loop, so every closure has its own. *)
Definition plugin_closer (pinst : PluginInstance) : Closer :=
  fun w => (None, Instance_Close pinst w).

(** The body of the loop of [initMappers], over the names still to load.
    The receiver is updated in place: the App it has become is returned
    next to the error. *)
Fixpoint initMappers_loop (a : App) (ctx : Context) (f : Factory)
    (names : list string) : Go (App * option error) :=
  match names with
  | [] => mret (a, None)
  | name :: rest =>
      _ ← log_Debug (logger a) "loading mapper plugin" name;
      r ← startPlugin ctx MapperType f name;
      match r with
      | inr err => mret (a, Some err)
      | inl pinst =>
          ms ← append (mappers a) (Mappers pinst);
          let a := set_mappers ms a in
          let a := set_closers (closers a ++ [plugin_closer pinst]) a in
          initMappers_loop a ctx f rest
      end
  end.

Definition initMappers (a : App) (ctx : Context) (f : Factory)
  : Go (App * option error) :=
  initMappers_loop a ctx f (Registered f).

Definition newApp (ctx : Context) (p : Project) (cfg : ConfigApp)
  : Go (option App * option error) :=
  lit ← slice_lit;
  pm ← read_slice (p_mappers p);
  ms ← append lit pm;
  let app :=
    {| UI := p_UI p;
       project := p;
       config := cfg;
       ref := {| Application := cfg_Name cfg; Project_ := p_name p |};
       workspace := WorkspaceRef p;
       client := p_client p;
       source := {| src_App := cfg_Name cfg; src_Path := "." |};
       jobInfo := p_jobInfo p;
       logger := Logger_Named (Logger_Named (p_logger p) "app") (cfg_Name cfg);
       dir := None;
       mappers := ms;
       closers := [] |} in
  let path := p_root p in
  let path :=
    if decide (cfg_Path cfg = "") then path
    else filepath_Join path (cfg_Path cfg) in
  let app := set_source_Path path app in
  r ← Project_dir_App (p_dir p) (cfg_Name cfg);
  match r with
  | inr err => mret (None, Some err)
  | inl d =>
      let app := set_dir (Some d) app in
      match p_factories p !! MapperType with
      | Some f =>
          r ← initMappers app ctx f;
          match snd r with
          | Some err => mret (None, Some err)
          | None => mret (Some (fst r), None)
          end
      | None => mret (Some app, None)
      end
  end.

Definition call_closer (c : Closer) : Go (option error) := fun w =>
  Returned (fst (c w)) (snd (c w)).

Fixpoint Close_loop (cs : list Closer) : Go unit :=
  match cs with
  | [] => mret tt
  | c :: rest => _ ← call_closer c; Close_loop rest
  end.

Definition Close (a : App) : Go (option error) :=
  _ ← Close_loop (closers a);
  mret None.

Definition Ref (a : App) : Ref_Application := ref a.

(** Modelled from the spec: [Project.mergeLabels] is declared outside
    app.go.  Section 4.4: the first set is the lowest layer given, each
    further set, applied left to right, overwrites colliding keys of the
    layers below it, and the project-wide defaults sit below them all. *)
Definition Project_mergeLabels (p : Project) (ls : list (gmap string string))
  : gmap string string :=
  foldl (fun acc m => m ∪ acc) (p_labels p) ls.

Definition mergeLabels (a : App) (ls : list (gmap string string))
  : gmap string string :=
  let ls := [cfg_Labels (config a)] ++ ls in
  Project_mergeLabels (project a) ls.

(** What [callDynamicFunc] does once [f] is a [*argmapper.Func]: the part
    under the deferred close of the status. *)
Definition callDynamicFunc_body (a : App) (ctx : Context) (log : Logger)
    (result : iface) (c : option Component) (rawFunc : FuncPtr)
    (args : list Arg) : Go (iface * option error) :=
  ms ← read_slice (mappers a);
  labels ← Component_labels c;
  let args :=
    args ++ [ConverterFunc ms;
             Typed [TContext ctx; TLogger log; TSource (source a);
                    TJobInfo (jobInfo a); TDir (dir a); TUI (UI a)];
             Named "labels" {| ls_Labels := labels |}] in
  callResult ← Func_Call rawFunc args;
  match res_Err callResult with
  | Some err => mret (Nil, Some err)
  | None =>
      raw ← Result_Out callResult 0;
      match result with
      | Nil => mret (raw, None)
      | Boxed _ _ =>
          interfaceType ← Type_Elem (reflect_TypeOf result);
          let rawType := reflect_TypeOf raw in
          ok ← Type_Implements rawType interfaceType;
          if negb ok then
            mret (Nil,
                  Some (status_Errorf_expected FailedPrecondition
                          (type_String interfaceType)
                          (from_option type_String "" rawType)))
          else mret (raw, None)
      end
  end.

Definition callDynamicFunc (a : App) (ctx : Context) (log : Logger)
    (result : iface) (c : option Component) (f : iface) (args : list Arg)
  : Go (iface * option error) :=
  n ← match as_Func f with
      | Some rawFunc => mret (inl rawFunc)
      | None => NewFunc f log
      end;
  match n with
  | inr err => mret (Nil, Some err)
  | inl rawFunc =>
      status ← UI_Status (UI a);
      defer (Status_Close status)
            (callDynamicFunc_body a ctx log result c rawFunc args)
  end.

End Program.

(** ** Reading traces *)

(** The events a computation adds to the trace of the world it starts in. *)
Definition events_of {A} (m : Go A) (w : World) : list Event :=
  drop (length (trace w)) (trace (final (m w))).

(** The plugins started, in the order they came up. *)
Definition started (tr : list Event) : list PluginInstance :=
  omap (fun e => match e with EvPluginStarted i _ => Some i | _ => None end) tr.

(** The converters the started plugins export, in that order. *)
Definition exported (tr : list Event) : list FuncPtr :=
  concat (Mappers <$> started tr).

(** The plugins that failed to start, with their errors. *)
Definition failed (tr : list Event) : list (string * error) :=
  omap (fun e => match e with EvPluginFailed n err => Some (n, err) | _ => None end) tr.

(** The processes that were shut down, one entry per shutdown. *)
Definition closed (tr : list Event) : list nat :=
  omap (fun e => match e with EvPluginClose pid => Some pid | _ => None end) tr.

(** The calls dispatched to go-argmapper. *)
Definition calls (tr : list Event) : list (FuncPtr * list Arg * CallOutcome) :=
  omap (fun e => match e with EvCall f args o => Some (f, args, o) | _ => None end) tr.

Definition is_status (e : Event) : bool :=
  match e with
  | EvStatusOpen _ _ | EvStatusClose _ => true
  | _ => false
  end.

(** The openings and closings of UI statuses. *)
Definition status_events (tr : list Event) : list Event :=
  filter (fun e => is_status e = true) tr.

(** [filepath.IsAbs] on Unix: the path begins with a slash. *)
Definition filepath_IsAbs (path : string) : bool :=
  match path with
  | String "/"%char _ => true
  | _ => false
  end.

(** A slice that owns its array: the array is allocated, lies outside the
    addresses [D], and is at least as long as the capacity says. *)
Definition owned (D : gset nat) (h : gmap nat (list FuncPtr)) (s : slice) : Prop :=
  exists q arr,
    s_ptr s = Some q /\ (q ∉ D) /\ h !! q = Some arr /\
    s_len s <= s_cap s /\ s_cap s <= length arr.

(** ** What the runs establish *)

(** What a run of the loop from [a] and [w] to [a'], [r] and [w'], with
    the events [tr], establishes.  [D] are addresses the App does not own. *)
Record loop_post (D : gset nat) (names : list string) (a : App) (w : World)
    (a' : App) (r : option error) (w' : World) (tr : list Event) : Prop := {
  lp_trace : trace w' = trace w ++ tr;
  lp_owned : owned D (heap w') (mappers a');
  lp_dom : D ⊆ dom (heap w');
  lp_frame : forall x, x ∈ D -> heap w' !! x = heap w !! x;
  lp_elems : elems (heap w') (mappers a') = elems (heap w) (mappers a) ++ exported tr;
  lp_closers : closers a' = closers a ++ (plugin_closer <$> started tr);
  lp_closed : closed tr = [];
  lp_pids : inst_pid <$> started tr = seq (next_id w) (length (started tr));
  lp_next : next_id w' = next_id w + length (started tr);
  lp_count : length (started tr) <= length names;
  lp_fields : set_closers [] (set_mappers nil_slice a')
              = set_closers [] (set_mappers nil_slice a);
  lp_result : match r with
              | None => failed tr = []
              | Some err =>
                  exists pre name,
                    tr = pre ++ [EvPluginFailed name err] /\ failed pre = []
              end
}.

(** The source path [newApp] computes. *)
Definition source_path `{E : Env} (p : Project) (cfg : ConfigApp) : string :=
  if decide (cfg_Path cfg = "") then p_root p
  else filepath_Join (p_root p) (cfg_Path cfg).

(** What a run of [newApp] from [w] to the result [r] and [w'], with the
    events [tr], establishes. *)
Record new_post `{E : Env} (p : Project) (cfg : ConfigApp) (w : World)
    (r : option App * option error) (w' : World) (tr : list Event) : Prop := {
  np_trace : trace w' = trace w ++ tr;
  np_frame : forall x, x ∈ dom (heap w) -> heap w' !! x = heap w !! x;
  np_closed : closed tr = [];
  np_result :
    match r with
    | (Some app, None) =>
        owned (dom (heap w)) (heap w') (mappers app) /\
        elems (heap w') (mappers app)
          = elems (heap w) (p_mappers p) ++ exported tr /\
        closers app = plugin_closer <$> started tr /\
        inst_pid <$> started tr = seq (next_id w) (length (started tr)) /\
        failed tr = [] /\
        source app = {| src_App := cfg_Name cfg; src_Path := source_path p cfg |} /\
        length (started tr)
          <= from_option (fun f => length (Registered f)) 0
               (p_factories p !! MapperType)
    | (None, Some err) =>
        tr = [EvDirApp (cfg_Name cfg) (inr err)] \/
        exists pre name, tr = pre ++ [EvPluginFailed name err] /\ failed pre = []
    | _ => False
    end
}.

Section Derived.
Context `{E : Env}.

(** What [callDynamicFunc] makes of [f]: the [*argmapper.Func] it is, or
    the answer of [NewFunc]. *)
Definition normalize (f : iface) (log : Logger) : FuncPtr + error :=
  match as_Func f with
  | Some rawFunc => inl rawFunc
  | None => argmapper_NewFunc f log
  end.

(** The arguments [callDynamicFunc] hands to [Call]. *)
Definition call_args (a : App) (ctx : Context) (log : Logger)
    (labels : gmap string string) (ms : list FuncPtr) (args : list Arg) : list Arg :=
  args ++ [ConverterFunc ms;
           Typed [TContext ctx; TLogger log; TSource (source a);
                  TJobInfo (jobInfo a); TDir (dir a); TUI (UI a)];
           Named "labels" {| ls_Labels := labels |}].

(** The check of the result [raw] of a call against the expected type:
    the message of the panic, or what [callDynamicFunc] returns. *)
Definition verify (result raw : iface) : string + (iface * option error) :=
  match result with
  | Nil => inr (raw, None)
  | Boxed rt _ =>
      match type_Elem rt with
      | None => inl "reflect: Elem of invalid type"
      | Some it =>
          match raw with
          | Nil => inl "invalid memory address or nil pointer dereference"
          | Boxed rawT _ =>
              match type_Implements rawT it with
              | None => inl "reflect: non-interface type passed to Type.Implements"
              | Some true => inr (raw, None)
              | Some false =>
                  inr (Nil,
                       Some (StatusError FailedPrecondition
                               ("operation expected result type "
                                +:+ type_String it +:+ ", got "
                                +:+ type_String rawT)))
              end
          end
      end
  end.

(** What follows the call, from what the call did. *)
Definition after_call (result : iface) (o : CallOutcome)
  : string + (iface * option error) :=
  match o with
  | CallPanics msg => inl msg
  | CallReturns r =>
      match res_Err r with
      | Some err => inr (Nil, Some err)
      | None =>
          match res_out r !! 0 with
          | None => inl "index out of range"
          | Some raw => verify result raw
          end
      end
  end.

Definition finish {A} (x : string + A) (w : World) : Outcome A :=
  match x with
  | inl msg => Panicked msg w
  | inr a => Returned a w
  end.

(** The part of [callDynamicFunc] that runs once [f] is a
    [*argmapper.Func]: a status is opened, the body runs, the status is
    closed. *)
Definition with_status (a : App) (body : Go (iface * option error)) (w : World)
  : Outcome (iface * option error) :=
  let sid := next_id w in
  match body (bump (emit (EvStatusOpen (UI a) sid) w)) with
  | Returned x w2 => Returned x (emit (EvStatusClose sid) w2)
  | Panicked msg w2 => Panicked msg (emit (EvStatusClose sid) w2)
  end.

End Derived.

(** ** A small installation, for the examples

    Type 0 is [*argmapper.Func], type 1 a pointer to the interface type 2,
    which type 3 implements and type 4 does not; type 5 is a plain
    function type.  The plugin "beta" does not come up; every other
    plugin exports two converters. *)
Definition demo_env : Env := {|
  MapperType := 8;
  growslice := fun old n => 2 * n;
  filepath_Join := fun a b => a +:+ "/" +:+ b;
  datadir_App := fun _ _ _ => inl {| adir_id := 1 |};
  plugin_start := fun _ _ _ name =>
    if decide (name = "beta") then inr (OpaqueError 7)
    else inl [FuncAt 10; FuncAt 11];
  as_Func := fun f =>
    match f with
    | Boxed (RType 0) v => Some (FuncAt v)
    | _ => None
    end;
  argmapper_NewFunc := fun f _ =>
    match f with
    | Boxed (RType 5) v => inl (FuncAt v)
    | _ => inr (OpaqueError 3)
    end;
  argmapper_Call := fun _ f _ =>
    match f with
    | FuncAt 1 => CallReturns {| res_Err := None; res_out := [Boxed (RType 3) 5] |}
    | FuncAt 2 => CallReturns {| res_Err := None; res_out := [Boxed (RType 4) 6] |}
    | FuncAt 3 => CallReturns {| res_Err := Some (OpaqueError 4); res_out := [] |}
    | FuncAt 4 => CallPanics "plugin crashed"
    | _ => CallReturns {| res_Err := None; res_out := [] |}
    end;
  type_Elem := fun t =>
    match t with
    | RType 1 => Some (RType 2)
    | _ => None
    end;
  type_Implements := fun t u =>
    match u with
    | RType 2 => Some (match t with RType 3 => true | _ => false end)
    | _ => None
    end;
  type_String := fun t =>
    match t with
    | RType 2 => "component.ReleaseManager"
    | RType 3 => "*k8s.Releaser"
    | RType 4 => "*docker.Builder"
    | _ => "int"
    end
|}.

Definition demo_ctx : Context := {| ctx_id := 0 |}.

(** A project rooted at [root] whose mapper factory has registered
    [names]; its converter slice has one element and room for three more. *)
Definition demo_project (root : string) (names : list string) : Project := {|
  p_name := "shop";
  p_root := root;
  p_client := {| client_id := 0 |};
  p_jobInfo := {| job_id := 0 |};
  p_logger := {| log_names := ["waypoint"] |};
  p_workspace := {| Workspace := "default" |};
  p_UI := {| ui_id := 0 |};
  p_dir := {| pdir_id := 0 |};
  p_mappers := Slice (Some 1) 1 4;
  p_factories := {[ 8 := {| Registered := names |} ]};
  p_labels := ∅
|}.

Definition demo_world : World := {|
  trace := [];
  heap := {[ 1 := [FuncAt 1; NilFunc; NilFunc; NilFunc] ]};
  next_id := 0
|}.

Definition demo_cfg (path : string) : ConfigApp := {|
  cfg_Name := "web";
  cfg_Path := path;
  cfg_Labels := {[ "env" := "staging"; "team" := "infra" ]}
|}.

(** The App of the small installation once the plugin "alpha" is loaded,
    and the world [newApp] leaves behind it. *)
Definition demo_app : App := {|
  UI := {| ui_id := 0 |};
  project := demo_project "/src/shop" ["alpha"];
  config := demo_cfg "";
  ref := {| Application := "web"; Project_ := "shop" |};
  workspace := {| Workspace := "default" |};
  client := {| client_id := 0 |};
  source := {| src_App := "web"; src_Path := "/src/shop" |};
  jobInfo := {| job_id := 0 |};
  logger := {| log_names := ["waypoint"; "app"; "web"] |};
  dir := Some {| adir_id := 1 |};
  mappers := Slice (Some 4) 3 6;
  closers := [plugin_closer {| inst_pid := 0; Mappers := [FuncAt 10; FuncAt 11] |}]
|}.

Definition demo_app_world : World :=
  final (newApp (E:=demo_env) demo_ctx (demo_project "/src/shop" ["alpha"])
           (demo_cfg "") demo_world).

(** Every plugin the run started was shut down in the run. *)
Definition rolled_back (tr : list Event) : Prop :=
  forall pinst, pinst ∈ started tr -> inst_pid pinst ∈ closed tr.

(** The invocation of the small installation: the function 1, an expected
    result of type 1 (a pointer to the interface type 2), a component
    without labels. *)
Definition demo_component : Component := {| c_labels := ∅ |}.
Definition demo_log : Logger := {| log_names := ["waypoint"; "app"; "web"] |}.

Definition demo_call_args : list Arg :=
  call_args demo_app demo_ctx demo_log ∅
    (elems (heap demo_app_world) (mappers demo_app)) [].

(** ** Further readings of runs *)

(** The names of the plugins started, in the order they came up. *)
Definition started_names (tr : list Event) : list string :=
  omap (fun e => match e with EvPluginStarted _ n => Some n | _ => None end) tr.

(** The values handed to [NewFunc]. *)
Definition newfuncs (tr : list Event) : list iface :=
  omap (fun e => match e with EvNewFunc f _ => Some f | _ => None end) tr.

(** The App [newApp] has assembled when it turns to the data directory:
    the fields copied from the project and the configuration, the source
    path, and the slice [s] of converters. *)
Definition initial_app `{E : Env} (p : Project) (cfg : ConfigApp) (s : slice) : App :=
  set_source_Path (source_path p cfg)
    {| UI := p_UI p;
       project := p;
       config := cfg;
       ref := {| Application := cfg_Name cfg; Project_ := p_name p |};
       workspace := WorkspaceRef p;
       client := p_client p;
       source := {| src_App := cfg_Name cfg; src_Path := "." |};
       jobInfo := p_jobInfo p;
       logger := Logger_Named (Logger_Named (p_logger p) "app") (cfg_Name cfg);
       dir := None;
       mappers := s;
       closers := [] |}.

(** A slice whose array, if it has one, is allocated. *)
Definition allocated (h : gmap nat (list FuncPtr)) (s : slice) : Prop :=
  forall q, s_ptr s = Some q -> q ∈ dom h.

(** The events of an invocation from the world [w], read off
    [callDynamicFunc] statement by statement: the normalization of [f],
    the opening of the status, the call if the component is there, the
    deferred close. *)
Definition invocation_events `{E : Env} (a : App) (ctx : Context) (log : Logger)
    (c : option Component) (f : iface) (args : list Arg) (w : World) : list Event :=
  match normalize f log with
  | inr err => [EvNewFunc f (inr err)]
  | inl rawFunc =>
      let pre :=
        match as_Func f with
        | Some _ => []
        | None => [EvNewFunc f (inl rawFunc)]
        end in
      let opened := pre ++ [EvStatusOpen (UI a) (next_id w)] in
      opened
      ++ match c with
         | None => []
         | Some comp =>
             let args' :=
               call_args a ctx log (c_labels comp) (elems (heap w) (mappers a)) args in
             [EvCall rawFunc args' (argmapper_Call (trace w ++ opened) rawFunc args')]
         end
      ++ [EvStatusClose (next_id w)]
  end.

(** ** The command [server config-set]

    [ServerConfigSetCommand] of package cli.  The base command, the flag
    package, the server client and the UI live outside the file: what
    they answer is read from [CliEnv]. *)

(** [pb.ServerConfig_AdvertiseAddr] *)
Record ServerConfig_AdvertiseAddr := { Addr : string; Insecure : bool }.

(** [pb.ServerConfig] *)
Record ServerConfig := { AdvertiseAddrs : list ServerConfig_AdvertiseAddr }.

(** [pb.SetServerConfigRequest] *)
Record SetServerConfigRequest := { Config : ServerConfig }.

(** The fields of the command a flag writes to. *)
Inductive FlagTarget := TargetAddr | TargetInsecure.

(** [flag.StringVar] and [flag.BoolVar] *)
Inductive FlagVar :=
| StringVar (Name : string) (Target : FlagTarget) (Usage : string)
| BoolVar (Name : string) (Target : FlagTarget) (Usage : string).

(** A set of flags of [flag.Sets], with its name. *)
Record FlagSet := { set_name : string; set_vars : list FlagVar }.

Record ServerConfigSetCommand := { flagAdvertiseAddr : ServerConfig_AdvertiseAddr }.

(** [terminal.WithErrorStyle] and [terminal.WithSuccessStyle] *)
Inductive Style := ErrorStyle | SuccessStyle.

(** What the command does to the outside. *)
Inductive CliEvent :=
| CliInit (args : list string) (flags : list FlagSet)
| CliSetServerConfig (req : SetServerConfigRequest)
| CliOutput (msg : string) (style : Style).

Class CliEnv := {
  (** [c.Init(WithArgs(args), WithFlags(flags))]: the error, and the
      values the parsed flags leave in the targets *)
  base_Init : list string -> list FlagSet -> ServerConfig_AdvertiseAddr
              -> option error * ServerConfig_AdvertiseAddr;
  (** the sets [c.flagSet] starts from, for a bit mask *)
  base_flagSet : nat -> list FlagSet;
  (** [client.SetServerConfig(c.Ctx, req)], its error *)
  client_SetServerConfig : SetServerConfigRequest -> option error;
  (** [err.Error()] *)
  error_Error : error -> string
}.

Section Cli.
Context `{C : CliEnv}.

Definition Flags (c : ServerConfigSetCommand) : list FlagSet :=
  base_flagSet 0
  ++ [{| set_name := "Command Options";
         set_vars :=
           [StringVar "advertise-addr" TargetAddr
              "Address to advertise for the server. This is used by the entrypoints
binaries to communicate back to the server. If this is blank, then
the entrypoints will not communicate to the server. Features such as
logs, exec, etc. will not work.";
            BoolVar "advertise-insecure" TargetInsecure
              "If true, the advertised address should be connected to without TLS."] |}].

(** [Run]: the command as [Init] leaves it, the exit code, and the events
    in order. *)
Definition Run (c : ServerConfigSetCommand) (args : list string)
  : ServerConfigSetCommand * Z * list CliEvent :=
  let flags := Flags c in
  let r := base_Init args flags (flagAdvertiseAddr c) in
  let c := {| flagAdvertiseAddr := snd r |} in
  match fst r with
  | Some _ => (c, 1%Z, [CliInit args flags])
  | None =>
      let cfg := {| AdvertiseAddrs := [flagAdvertiseAddr c] |} in
      let req := {| Config := cfg |} in
      match client_SetServerConfig req with
      | Some err =>
          (c, 1%Z,
           [CliInit args flags; CliSetServerConfig req;
            CliOutput (error_Error err) ErrorStyle])
      | None =>
          (c, 0%Z,
           [CliInit args flags; CliSetServerConfig req;
            CliOutput "Server configuration set!" SuccessStyle])
      end
  end.

Definition Synopsis (c : ServerConfigSetCommand) : string :=
  "Set the server online configuration.".

End Cli.



(** A server that refuses insecure addresses, and a base command that
    reads the address from the first argument and fails without one. *)
Definition demo_cli : CliEnv := {|
  base_Init := fun args _ old =>
    match args with
    | [] => (Some (OpaqueError 1), old)
    | a :: _ => (None, {| Addr := a; Insecure := Insecure old |})
    end;
  base_flagSet := fun _ => [];
  client_SetServerConfig := fun req =>
    match AdvertiseAddrs (Config req) with
    | [{| Addr := _; Insecure := true |}] => Some (OpaqueError 2)
    | _ => None
    end;
  error_Error := fun _ => "insecure addresses are refused"
|}.

(** The small installation with a data directory that cannot be obtained
    and a function 1 that produces the nil value. *)
Definition demo_env_failing : Env := {|
  MapperType := 8;
  growslice := fun old n => 2 * n;
  filepath_Join := fun a b => a +:+ "/" +:+ b;
  datadir_App := fun _ _ _ => inr (OpaqueError 9);
  plugin_start := fun _ _ _ _ => inl [FuncAt 10; FuncAt 11];
  as_Func := fun f =>
    match f with
    | Boxed (RType 0) v => Some (FuncAt v)
    | _ => None
    end;
  argmapper_NewFunc := fun _ _ => inr (OpaqueError 3);
  argmapper_Call := fun _ _ _ =>
    CallReturns {| res_Err := None; res_out := [Nil] |};
  type_Elem := fun t =>
    match t with
    | RType 1 => Some (RType 2)
    | _ => None
    end;
  type_Implements := fun _ _ => Some false;
  type_String := fun _ => "int"
|}.

(** A project without any plugin factory. *)
Definition demo_project_bare : Project := {|
  p_name := "shop";
  p_root := "/src/shop";
  p_client := {| client_id := 0 |};
  p_jobInfo := {| job_id := 0 |};
  p_logger := {| log_names := ["waypoint"] |};
  p_workspace := {| Workspace := "default" |};
  p_UI := {| ui_id := 0 |};
  p_dir := {| pdir_id := 0 |};
  p_mappers := Slice (Some 1) 1 4;
  p_factories := ∅;
  p_labels := ∅
|}.

(** The App of the small installation in a project that has the default
    label region=us. *)
Definition demo_app_defaults : App := {|
  UI := UI demo_app;
  project := {|
    p_name := "shop";
    p_root := "/src/shop";
    p_client := {| client_id := 0 |};
    p_jobInfo := {| job_id := 0 |};
    p_logger := {| log_names := ["waypoint"] |};
    p_workspace := {| Workspace := "default" |};
    p_UI := {| ui_id := 0 |};
    p_dir := {| pdir_id := 0 |};
    p_mappers := Slice (Some 1) 1 4;
    p_factories := {[ 8 := {| Registered := ["alpha"] |} ]};
    p_labels := {[ "region" := "us" ]}
  |};
  config := config demo_app;
  ref := ref demo_app;
  workspace := workspace demo_app;
  client := client demo_app;
  source := source demo_app;
  jobInfo := jobInfo demo_app;
  logger := logger demo_app;
  dir := dir demo_app;
  mappers := mappers demo_app;
  closers := closers demo_app
|}.

(** The world a second construction, of the App "api" with the plugin
    "gamma", leaves behind the construction of the first App. *)
Definition demo_later_world : World :=
  final (newApp (E:=demo_env) demo_ctx (demo_project "/src/shop" ["gamma"])
           (demo_cfg "api") demo_app_world).

(** ** Lemmas on slices *)

Section SliceLemmas.
Context `{E : Env}.

Lemma slice_lit_spec (w : World) :
  exists q,
    (q ∉ dom (heap w)) /\
    slice_lit w = Returned (Slice (Some q) 0 0) (set_heap (<[q := []]> (heap w)) w).
Proof.
  exists (fresh (dom (heap w))). split; [apply is_fresh | reflexivity].
Qed.

Lemma elems_length_owned D h s : owned D h s -> length (elems h s) = s_len s.
Proof.
  intros (q & arr & Hp & _ & Hq & Hlen & Hcap).
  unfold elems, backing. rewrite Hp, Hq. simpl.
  rewrite length_take. lia.
Qed.

(** [append] on a slice that owns its array: the result owns its array
    too, holds the old elements followed by the new ones, and no array at
    an address of [D] is written. *)
Lemma append_owned D s xs w :
  owned D (heap w) s -> D ⊆ dom (heap w) ->
  exists s' w',
    append s xs w = Returned s' w' /\
    trace w' = trace w /\ next_id w' = next_id w /\
    owned D (heap w') s' /\ D ⊆ dom (heap w') /\
    (forall x, x ∈ D -> heap w' !! x = heap w !! x) /\
    elems (heap w') s' = elems (heap w) s ++ xs.
Proof.
  intros Hown HD.
  pose proof (elems_length_owned _ _ _ Hown) as Hel.
  destruct Hown as (q & arr & Hp & HqD & Hq & Hlen & Hcap).
  unfold append. case_decide as Hfit.
  - rewrite Hp. eexists _, _. split; [reflexivity|]. simpl.
    split; [done|]. split; [done|].
    assert (Hnew : alter (fun arr0 => take (s_len s) arr0 ++ xs ++ drop (s_len s + length xs) arr0)
                     q (heap w) !! q
                   = Some (take (s_len s) arr ++ xs ++ drop (s_len s + length xs) arr)).
    { rewrite lookup_alter_eq, Hq. done. }
    split; [|split; [|split]].
    + exists q, (take (s_len s) arr ++ xs ++ drop (s_len s + length xs) arr).
      simpl. split; [done|]. split; [done|]. split; [done|]. split; [lia|].
      rewrite !length_app, length_take, length_drop. lia.
    + intros x Hx. apply HD in Hx. rewrite elem_of_dom in *.
      destruct (decide (x = q)) as [->|Hne].
      * rewrite Hnew. eauto.
      * rewrite lookup_alter_ne by done. done.
    + intros x Hx. rewrite lookup_alter_ne; [done|]. intros ->. done.
    + unfold elems, backing. simpl. rewrite Hp, Hnew, Hq. simpl.
      rewrite app_assoc. rewrite take_app_le.
      2:{ rewrite length_app, length_take. lia. }
      rewrite take_ge; [done|].
      rewrite length_app, length_take. lia.
  - set (n := s_len s + length xs) in *.
    set (c := Nat.max n (growslice (s_cap s) n)).
    set (p := fresh (dom (heap w))).
    assert (Hp' : p ∉ dom (heap w)) by apply is_fresh.
    eexists _, _. split; [reflexivity|]. simpl.
    split; [done|]. split; [done|].
    split; [|split; [|split]].
    + exists p, (elems (heap w) s ++ xs ++ replicate (c - n) NilFunc). simpl.
      split; [done|]. split; [set_solver|]. split; [by rewrite lookup_insert_eq|].
      split; [lia|]. rewrite !length_app, length_replicate, Hel. lia.
    + rewrite dom_insert. set_solver.
    + intros x Hx. rewrite lookup_insert_ne; [done|]. intros ->. set_solver.
    + unfold elems at 1, backing. simpl. rewrite lookup_insert_eq. simpl.
      rewrite app_assoc. rewrite take_app_le.
      2:{ rewrite length_app, Hel. lia. }
      rewrite take_ge; [done|]. rewrite length_app, Hel. lia.
Qed.

End SliceLemmas.

(** ** Lemmas on traces *)

Lemma started_app tr1 tr2 : started (tr1 ++ tr2) = started tr1 ++ started tr2.
Proof. apply omap_app. Qed.

Lemma failed_app tr1 tr2 : failed (tr1 ++ tr2) = failed tr1 ++ failed tr2.
Proof. apply omap_app. Qed.

Lemma closed_app tr1 tr2 : closed (tr1 ++ tr2) = closed tr1 ++ closed tr2.
Proof. apply omap_app. Qed.

Lemma calls_app tr1 tr2 : calls (tr1 ++ tr2) = calls tr1 ++ calls tr2.
Proof. apply omap_app. Qed.

Lemma exported_app tr1 tr2 : exported (tr1 ++ tr2) = exported tr1 ++ exported tr2.
Proof. unfold exported. by rewrite started_app, fmap_app, concat_app. Qed.

Lemma status_events_app tr1 tr2 :
  status_events (tr1 ++ tr2) = status_events tr1 ++ status_events tr2.
Proof. apply filter_app. Qed.

Lemma events_of_extends {A} (m : Go A) (w : World) (tr : list Event) :
  trace (final (m w)) = trace w ++ tr -> events_of m w = tr.
Proof. intros H. unfold events_of. rewrite H. apply drop_app_length. Qed.

(** ** The loop of [initMappers] *)

Section LoopLemmas.
Context `{E : Env}.

Lemma initMappers_loop_cons a ctx f name rest w :
  initMappers_loop a ctx f (name :: rest) w =
  let w1 := emit (EvLogDebug (logger a) "loading mapper plugin" name) w in
  match plugin_start (trace w1) MapperType f name with
  | inr err => Returned (a, Some err) (emit (EvPluginFailed name err) w1)
  | inl ms =>
      let pinst := {| inst_pid := next_id w1; Mappers := ms |} in
      match append (mappers a) ms (bump (emit (EvPluginStarted pinst name) w1)) with
      | Returned s w2 =>
          initMappers_loop
            (set_closers (closers a ++ [plugin_closer pinst]) (set_mappers s a))
            ctx f rest w2
      | Panicked msg w2 => Panicked msg w2
      end
  end.
Proof.
  simpl. unfold mbind, Go_bind, log_Debug, do_emit, startPlugin. simpl.
  destruct (plugin_start _ _ _ _); reflexivity.
Qed.

Lemma initMappers_loop_spec D ctx f names : forall a w,
  owned D (heap w) (mappers a) -> D ⊆ dom (heap w) ->
  exists a' r w' tr,
    initMappers_loop a ctx f names w = Returned (a', r) w' /\
    loop_post D names a w a' r w' tr.
Proof.
  induction names as [|name rest IH]; intros a w Hown HD.
  - exists a, None, w, []. split; [reflexivity|].
    split; simpl; rewrite ?app_nil_r; try done; lia.
  - rewrite initMappers_loop_cons. cbv zeta.
    set (w1 := emit _ w).
    destruct (plugin_start (trace w1) MapperType f name) as [ms|err].
    + set (pinst := {| inst_pid := next_id w1; Mappers := ms |}).
      set (w2 := bump (emit (EvPluginStarted pinst name) w1)).
      destruct (append_owned D (mappers a) ms w2) as (s & w3 & Happ & Htr & Hnx & Hown3 & HD3 & Hfr3 & Hel3);
        [exact Hown | exact HD |].
      rewrite Happ.
      destruct (IH (set_closers (closers a ++ [plugin_closer pinst]) (set_mappers s a)) w3)
        as (a' & r & w' & tr & Hrun & Hpost); [exact Hown3 | exact HD3 |].
      exists a', r, w', ([EvLogDebug (logger a) "loading mapper plugin" name;
                          EvPluginStarted pinst name] ++ tr).
      split; [exact Hrun|].
      destruct Hpost as [P1 P2 P3 P4 P5 P6 P7 P8 P9 Pc P10 P11].
      simpl in *.
      split.
      * rewrite P1, Htr. simpl. by rewrite <- !app_assoc.
      * exact P2.
      * exact P3.
      * intros x Hx. rewrite P4 by done. by apply Hfr3.
      * rewrite P5, Hel3. simpl.
        change (exported (EvLogDebug (logger a) "loading mapper plugin" name
                          :: EvPluginStarted pinst name :: tr))
          with (ms ++ exported tr).
        by rewrite <- app_assoc.
      * rewrite P6. simpl. by rewrite <- app_assoc.
      * exact P7.
      * change (started (EvLogDebug (logger a) "loading mapper plugin" name
                         :: EvPluginStarted pinst name :: tr))
          with (pinst :: started tr).
        cbn. rewrite P8, Hnx. reflexivity.
      * change (started (EvLogDebug (logger a) "loading mapper plugin" name
                         :: EvPluginStarted pinst name :: tr))
          with (pinst :: started tr).
        rewrite P9, Hnx. cbn. lia.
      * change (started (EvLogDebug (logger a) "loading mapper plugin" name
                         :: EvPluginStarted pinst name :: tr))
          with (pinst :: started tr).
        cbn. lia.
      * rewrite P10. reflexivity.
      * destruct r as [err|].
        -- destruct P11 as (pre & nm & -> & Hpre).
           exists ([EvLogDebug (logger a) "loading mapper plugin" name;
                    EvPluginStarted pinst name] ++ pre), nm.
           split; [by rewrite <- app_assoc|exact Hpre].
        -- exact P11.
    + exists a, (Some err), (emit (EvPluginFailed name err) w1),
        [EvLogDebug (logger a) "loading mapper plugin" name; EvPluginFailed name err].
      split; [reflexivity|].
      split; simpl; rewrite ?app_nil_r, <- ?app_assoc; try done; try lia.
      exists [EvLogDebug (logger a) "loading mapper plugin" name], name. done.
Qed.

End LoopLemmas.

(** ** [newApp] *)

Section NewAppLemmas.
Context `{E : Env}.

Lemma elems_insert_fresh (h : gmap nat (list FuncPtr)) (q : nat) (s : slice) :
  q ∉ dom h -> elems (<[q := []]> h) s = elems h s.
Proof.
  intros Hq. unfold elems, backing. destruct (s_ptr s) as [x|]; [|done].
  destruct (decide (x = q)) as [->|Hne].
  - rewrite lookup_insert_eq. apply not_elem_of_dom in Hq. by rewrite Hq.
  - by rewrite lookup_insert_ne.
Qed.

(** The first step of [newApp]: the copy of the project's converters. *)
Lemma copy_mappers_spec (p : Project) (w : World) :
  exists s w1,
    (lit ← slice_lit; pm ← read_slice (p_mappers p); append lit pm) w
      = Returned s w1 /\
    trace w1 = trace w /\ next_id w1 = next_id w /\
    owned (dom (heap w)) (heap w1) s /\ dom (heap w) ⊆ dom (heap w1) /\
    (forall x, x ∈ dom (heap w) -> heap w1 !! x = heap w !! x) /\
    elems (heap w1) s = elems (heap w) (p_mappers p).
Proof.
  destruct (slice_lit_spec w) as (q & Hq & Hlit).
  set (w0 := set_heap (<[q := []]> (heap w)) w) in *.
  assert (Hown0 : owned (dom (heap w)) (heap w0) (Slice (Some q) 0 0)).
  { exists q, []. simpl. rewrite lookup_insert_eq. repeat split; done || lia. }
  assert (HD0 : dom (heap w) ⊆ dom (heap w0)).
  { simpl. rewrite dom_insert. set_solver. }
  destruct (append_owned _ _ (elems (heap w0) (p_mappers p)) w0 Hown0 HD0)
    as (s & w1 & Happ & Htr & Hnx & Hown & HD & Hfr & Hel).
  exists s, w1. unfold mbind, Go_bind. rewrite Hlit. unfold read_slice.
  split; [exact Happ|].
  split; [done|]. split; [done|]. split; [done|]. split; [done|].
  split.
  - intros x Hx. rewrite Hfr by done. simpl.
    rewrite lookup_insert_ne; [done|]. intros ->. done.
  - rewrite Hel. simpl. by rewrite elems_insert_fresh.
Qed.

Lemma newApp_spec ctx p cfg w :
  exists r w' tr,
    newApp ctx p cfg w = Returned r w' /\ new_post p cfg w r w' tr.
Proof.
  destruct (copy_mappers_spec p w)
    as (s & w1 & Hcopy & Htr1 & Hnx1 & Hown1 & HD1 & Hfr1 & Hel1).
  unfold newApp. unfold mbind at 1 2 3, Go_bind at 1 2 3.
  unfold mbind, Go_bind in Hcopy.
  destruct (slice_lit w) as [lit w0|] eqn:Hlit; [|discriminate].
  unfold read_slice in *. rewrite Hcopy.
  unfold mbind at 1, Go_bind at 1. unfold Project_dir_App.
  set (app0 := set_source_Path _ _).
  destruct (datadir_App (trace w1) (p_dir p) (cfg_Name cfg)) as [d|err] eqn:Hdir.
  - destruct (p_factories p !! MapperType) as [f|] eqn:Hf.
    + unfold mbind, Go_bind, initMappers.
      set (w2 := emit _ w1).
      destruct (initMappers_loop_spec (dom (heap w)) ctx f (Registered f)
                  (set_dir (Some d) app0) w2)
        as (a' & r & w' & tr & Hrun & Hpost); [exact Hown1 | exact HD1 |].
      rewrite Hrun. simpl.
      destruct Hpost as [P1 P2 P3 P4 P5 P6 P7 P8 P9 Pc P10 P11].
      destruct r as [err|].
      * exists (None, Some err), w', (EvDirApp (cfg_Name cfg) (inl d) :: tr).
        split; [reflexivity|]. split.
        -- rewrite P1. simpl. rewrite Htr1. by rewrite <- app_assoc.
        -- intros x Hx. rewrite P4 by done. by apply Hfr1.
        -- exact P7.
        -- right. destruct P11 as (pre & nm & -> & Hpre).
           exists (EvDirApp (cfg_Name cfg) (inl d) :: pre), nm. done.
      * exists (Some a', None), w', (EvDirApp (cfg_Name cfg) (inl d) :: tr).
        split; [reflexivity|]. split.
        -- rewrite P1. simpl. rewrite Htr1. by rewrite <- app_assoc.
        -- intros x Hx. rewrite P4 by done. by apply Hfr1.
        -- exact P7.
        -- split; [exact P2|].
           split; [rewrite P5; simpl; by rewrite Hel1|].
           split; [exact P6|].
           change (started (EvDirApp (cfg_Name cfg) (inl d) :: tr)) with (started tr).
           split; [rewrite P8; simpl; by rewrite Hnx1|].
           split; [exact P11|].
           split; [|rewrite Hf; exact Pc].
           apply (f_equal source) in P10. exact P10.
    + exists (Some (set_dir (Some d) app0), None), (emit (EvDirApp (cfg_Name cfg) (inl d)) w1),
        [EvDirApp (cfg_Name cfg) (inl d)].
      split; [reflexivity|]. split.
      * simpl. by rewrite Htr1.
      * intros x Hx. by apply Hfr1.
      * done.
      * simpl. split; [exact Hown1|]. split; [by rewrite app_nil_r|].
        rewrite Hf. repeat split; done || (simpl; lia).
  - exists (None, Some err), (emit (EvDirApp (cfg_Name cfg) (inr err)) w1),
      [EvDirApp (cfg_Name cfg) (inr err)].
    split; [reflexivity|]. split.
    + simpl. by rewrite Htr1.
    + intros x Hx. by apply Hfr1.
    + done.
    + by left.
Qed.

End NewAppLemmas.

(** ** [Close] *)

Section CloseLemmas.

Lemma Close_loop_fold (cs : list Closer) (w : World) :
  Close_loop cs w = Returned tt (foldl (fun w c => snd (c w)) w cs).
Proof.
  revert w. induction cs as [|c cs IH]; intros w; [reflexivity|].
  simpl. unfold mbind, Go_bind, call_closer. apply IH.
Qed.

Lemma Close_fold (a : App) (w : World) :
  Close a w = Returned None (foldl (fun w c => snd (c w)) w (closers a)).
Proof. unfold Close, mbind, Go_bind. by rewrite Close_loop_fold. Qed.

(** Running the handles [initMappers] registers: one shutdown per plugin,
    in the order of registration; nothing else changes. *)
Lemma fold_plugin_closers (insts : list PluginInstance) (w : World) :
  foldl (fun w c => snd (c w)) w (plugin_closer <$> insts)
  = {| trace := trace w ++ (EvPluginClose ∘ inst_pid <$> insts);
       heap := heap w; next_id := next_id w |}.
Proof.
  revert w. induction insts as [|i insts IH]; intros w.
  - simpl. rewrite app_nil_r. by destruct w.
  - simpl. rewrite IH. unfold Instance_Close. simpl.
    by rewrite <- app_assoc.
Qed.

Lemma closed_close_events (pids : list nat) :
  closed (EvPluginClose <$> pids) = pids.
Proof.
  induction pids as [|x pids IH]; [done|].
  change (x :: closed (EvPluginClose <$> pids) = x :: pids). by f_equal.
Qed.

End CloseLemmas.

(** ** [callDynamicFunc] *)

Section CallLemmas.
Context `{E : Env}.

Lemma callDynamicFunc_body_eq a ctx log result c rawFunc args w :
  callDynamicFunc_body a ctx log result c rawFunc args w =
  match c with
  | None => Panicked "invalid memory address or nil pointer dereference" w
  | Some comp =>
      let args' := call_args a ctx log (c_labels comp) (elems (heap w) (mappers a)) args in
      let o := argmapper_Call (trace w) rawFunc args' in
      finish (after_call result o) (emit (EvCall rawFunc args' o) w)
  end.
Proof.
  unfold callDynamicFunc_body, mbind, Go_bind, read_slice, Component_labels.
  destruct c as [comp|]; [|reflexivity]. simpl.
  unfold Func_Call, call_args, after_call. simpl.
  destruct (argmapper_Call _ _ _) as [r|msg]; [|reflexivity].
  destruct (res_Err r); [reflexivity|].
  unfold Result_Out. destruct (res_out r !! 0) as [raw|]; [|reflexivity].
  simpl. unfold verify. destruct result as [|rt v]; [reflexivity|].
  simpl. unfold Type_Elem. destruct (type_Elem rt) as [it|]; [|reflexivity].
  simpl. destruct raw as [|rawT rv]; [reflexivity|]. simpl.
  destruct (type_Implements rawT it) as [[|]|]; reflexivity.
Qed.

Lemma callDynamicFunc_eq a ctx log result c f args w :
  callDynamicFunc a ctx log result c f args w =
  match as_Func f with
  | Some rawFunc =>
      with_status a (callDynamicFunc_body a ctx log result c rawFunc args) w
  | None =>
      let r := argmapper_NewFunc f log in
      match r with
      | inl rawFunc =>
          with_status a (callDynamicFunc_body a ctx log result c rawFunc args)
            (emit (EvNewFunc f r) w)
      | inr err => Returned (Nil, Some err) (emit (EvNewFunc f r) w)
      end
  end.
Proof.
  unfold callDynamicFunc, mbind, Go_bind, with_status, defer, UI_Status,
    Status_Close, do_emit, NewFunc.
  destruct (as_Func f) as [rf|]; simpl.
  - destruct (callDynamicFunc_body _ _ _ _ _ _ _ _); reflexivity.
  - destruct (argmapper_NewFunc f log) as [rf|err]; simpl; [|reflexivity].
    destruct (callDynamicFunc_body _ _ _ _ _ _ _ _); reflexivity.
Qed.

(** The body adds at most the event of the call, and leaves the heap and
    the counter alone. *)
Lemma final_finish {A} (x : string + A) (w : World) : final (finish x w) = w.
Proof. by destruct x. Qed.

Lemma callDynamicFunc_body_run a ctx log result c rawFunc args w :
  exists tr,
    trace (final (callDynamicFunc_body a ctx log result c rawFunc args w))
      = trace w ++ tr /\
    heap (final (callDynamicFunc_body a ctx log result c rawFunc args w)) = heap w /\
    next_id (final (callDynamicFunc_body a ctx log result c rawFunc args w))
      = next_id w /\
    status_events tr = [] /\
    match c with
    | None => tr = []
    | Some comp =>
        let args' := call_args a ctx log (c_labels comp) (elems (heap w) (mappers a)) args in
        tr = [EvCall rawFunc args' (argmapper_Call (trace w) rawFunc args')]
    end.
Proof.
  rewrite callDynamicFunc_body_eq.
  destruct c as [comp|]; simpl.
  - eexists. rewrite final_finish. simpl. repeat split; reflexivity.
  - exists []. rewrite app_nil_r. repeat split; reflexivity.
Qed.

End CallLemmas.

(** ** Construction *)

Section Construction.
Context `{E : Env}.

Lemma newApp_events ctx p cfg w r w' tr :
  newApp ctx p cfg w = Returned r w' -> new_post p cfg w r w' tr ->
  events_of (newApp ctx p cfg) w = tr.
Proof.
  intros Hrun Hpost. apply events_of_extends. rewrite Hrun. simpl.
  apply (np_trace _ _ _ _ _ _ Hpost).
Qed.

(** C1, as the code has it: when a mapper plugin fails to start during
    [newApp], the construction stops at that failure and returns the
    plugin's error and no App; no shutdown handle is invoked during the
    construction, so the handles of the plugins started before the failure
    are not run by [newApp]. *)
Theorem newApp_failed_plugin_aborts ctx p cfg w name err :
  (name, err) ∈ failed (events_of (newApp ctx p cfg) w) ->
  (exists w', newApp ctx p cfg w = Returned (None, Some err) w') /\
  last (events_of (newApp ctx p cfg) w) = Some (EvPluginFailed name err) /\
  closed (events_of (newApp ctx p cfg) w) = [].
Proof.
  destruct (newApp_spec ctx p cfg w) as (r & w' & tr & Hrun & Hpost).
  rewrite (newApp_events _ _ _ _ _ _ _ Hrun Hpost).
  pose proof (np_closed _ _ _ _ _ _ Hpost) as Hclosed.
  pose proof (np_result _ _ _ _ _ _ Hpost) as Hres.
  intros Hin. destruct r as [[app|] [err'|]]; try done.
  - destruct Hres as (_ & _ & _ & _ & Hnone & _). rewrite Hnone in Hin.
    by apply elem_of_nil in Hin.
  - destruct Hres as [->|(pre & nm & -> & Hpre)].
    + by apply elem_of_nil in Hin.
    + rewrite failed_app, Hpre in Hin. simpl in Hin.
      apply list_elem_of_singleton in Hin. injection Hin as -> ->.
      split; [eauto|]. split; [apply last_snoc|done].
Qed.

End Construction.

(** The failure of "beta" after "alpha" has come up. *)
Lemma newApp_failed_plugin_aborts_witness :
  ("beta", OpaqueError 7) ∈
    failed (events_of (newApp (E:=demo_env) demo_ctx
                         (demo_project "/src/shop" ["alpha"; "beta"]) (demo_cfg ""))
              demo_world) /\
  closed (events_of (newApp (E:=demo_env) demo_ctx
                       (demo_project "/src/shop" ["alpha"; "beta"]) (demo_cfg ""))
            demo_world) = [].
Proof.
  assert (H : ("beta", OpaqueError 7) ∈
    failed (events_of (newApp (E:=demo_env) demo_ctx
                         (demo_project "/src/shop" ["alpha"; "beta"]) (demo_cfg ""))
              demo_world)).
  { vm_compute. apply list_elem_of_here. }
  split; [exact H|].
  exact (proj2 (proj2 (newApp_failed_plugin_aborts _ _ _ _ _ _ H))).
Defined.

(** C1, as the specification states it, fails: "alpha" is started, "beta"
    fails, [newApp] returns the error, and "alpha" has not been shut
    down. *)
Lemma newApp_rollback_counterexample :
  let run := newApp (E:=demo_env) demo_ctx
               (demo_project "/src/shop" ["alpha"; "beta"]) (demo_cfg "") in
  (exists w', run demo_world = Returned (None, Some (OpaqueError 7)) w') /\
  ~ rolled_back (events_of run demo_world).
Proof.
  split.
  - eexists. vm_compute. reflexivity.
  - intros H.
    specialize (H {| inst_pid := 0; Mappers := [FuncAt 10; FuncAt 11] |}).
    assert (Hin : {| inst_pid := 0; Mappers := [FuncAt 10; FuncAt 11] |}
                  ∈ started (events_of (newApp (E:=demo_env) demo_ctx
                       (demo_project "/src/shop" ["alpha"; "beta"]) (demo_cfg ""))
                       demo_world)).
    { vm_compute. apply list_elem_of_here. }
    apply H in Hin. vm_compute in Hin. by apply elem_of_nil in Hin.
Qed.

Example demo_app_built :
  newApp (E:=demo_env) demo_ctx (demo_project "/src/shop" ["alpha"]) (demo_cfg "")
    demo_world
  = Returned (Some demo_app, None) demo_app_world.
Proof. vm_compute. reflexivity. Qed.

(** ** Teardown *)

Section Teardown.
Context `{E : Env}.

Lemma newApp_success ctx p cfg w app w1 :
  newApp ctx p cfg w = Returned (Some app, None) w1 ->
  exists tr,
    events_of (newApp ctx p cfg) w = tr /\
    new_post p cfg w (Some app, None) w1 tr.
Proof.
  intros Hrun.
  destruct (newApp_spec ctx p cfg w) as (r & w' & tr & Hrun' & Hpost).
  rewrite Hrun in Hrun'. injection Hrun' as <- <-.
  exists tr. split; [|exact Hpost].
  by apply (newApp_events _ _ _ _ _ _ _ Hrun).
Qed.

Lemma Close_plugin_handles (a : App) (insts : list PluginInstance) (w : World) :
  closers a = plugin_closer <$> insts ->
  exists w',
    Close a w = Returned None w' /\
    trace w' = trace w ++ (EvPluginClose <$> (inst_pid <$> insts)) /\
    heap w' = heap w /\ next_id w' = next_id w.
Proof.
  intros Hcl. rewrite Close_fold, Hcl, fold_plugin_closers.
  eexists. split; [reflexivity|]. simpl.
  by rewrite list_fmap_compose.
Qed.

(** C2, as the code has it: every call of [Close] on an App built by
    [newApp] invokes each of its shutdown handles exactly once, in the
    order of registration, and returns without a panic; [Close] keeps no
    record of having run, so a second call invokes every handle once
    more. *)
Theorem Close_invokes_each_handle_once_per_call ctx p cfg w app w1 :
  newApp ctx p cfg w = Returned (Some app, None) w1 ->
  let pids := inst_pid <$> started (events_of (newApp ctx p cfg) w) in
  NoDup pids /\
  length (closers app) = length pids /\
  forall w2, exists w3 w4,
    Close app w2 = Returned None w3 /\
    events_of (Close app) w2 = EvPluginClose <$> pids /\
    Close app w3 = Returned None w4 /\
    events_of (Close app) w3 = EvPluginClose <$> pids.
Proof.
  intros Hrun. destruct (newApp_success _ _ _ _ _ _ Hrun) as (tr & -> & Hpost).
  cbv zeta.
  destruct (np_result _ _ _ _ _ _ Hpost) as (_ & _ & Hcl & Hpids & _).
  split; [rewrite Hpids; apply NoDup_seq|].
  split; [by rewrite Hcl, !length_fmap|].
  intros w2.
  destruct (Close_plugin_handles app (started tr) w2 Hcl) as (w3 & H3 & Ht3 & _).
  destruct (Close_plugin_handles app (started tr) w3 Hcl) as (w4 & H4 & Ht4 & _).
  exists w3, w4.
  split; [exact H3|]. split; [|split; [exact H4|]].
  - apply events_of_extends. by rewrite H3.
  - apply events_of_extends. by rewrite H4.
Qed.

(** C7: [Close] returns the nil error for every App, whatever its
    shutdown handles do and return: the world it leaves is the one the
    handles produce one after the other, and the errors they return are
    not looked at. *)
Theorem Close_always_returns_nil (a : App) (w : World) :
  Close a w = Returned None (foldl (fun w c => snd (c w)) w (closers a)).
Proof. apply Close_fold. Qed.

End Teardown.

Lemma Close_invokes_each_handle_once_per_call_witness :
  let pids := inst_pid <$> started (events_of
                (newApp (E:=demo_env) demo_ctx (demo_project "/src/shop" ["alpha"])
                   (demo_cfg "")) demo_world) in
  newApp (E:=demo_env) demo_ctx (demo_project "/src/shop" ["alpha"]) (demo_cfg "")
    demo_world = Returned (Some demo_app, None) demo_app_world /\
  NoDup pids /\ length (closers demo_app) = length pids.
Proof.
  assert (H : newApp (E:=demo_env) demo_ctx (demo_project "/src/shop" ["alpha"])
                (demo_cfg "") demo_world
              = Returned (Some demo_app, None) demo_app_world).
  { vm_compute. reflexivity. }
  pose proof (Close_invokes_each_handle_once_per_call _ _ _ _ _ _ H) as (H1 & H2 & _).
  split; [exact H|]. split; [exact H1|exact H2].
Defined.

(** C2, as the specification states it, fails: the App built with the
    plugin "alpha" shuts it down on the first [Close], and shuts it down
    again on the second. *)
Lemma Close_twice_counterexample :
  newApp (E:=demo_env) demo_ctx (demo_project "/src/shop" ["alpha"]) (demo_cfg "")
    demo_world = Returned (Some demo_app, None) demo_app_world /\
  exists w2,
    Close demo_app demo_app_world = Returned None w2 /\
    closed (events_of (Close demo_app) demo_app_world) = [0] /\
    closed (events_of (Close demo_app) w2) <> [].
Proof.
  split; [vm_compute; reflexivity|].
  eexists. split; [vm_compute; reflexivity|].
  split; [vm_compute; reflexivity|].
  vm_compute. discriminate.
Qed.

(** ** The converter chain and the source path *)

Section Chain.
Context `{E : Env}.

Lemma with_status_heap a (body : Go (iface * option error)) (w : World) :
  (forall w0, heap (final (body w0)) = heap w0) ->
  heap (final (with_status a body w)) = heap w.
Proof.
  intros Hbody. unfold with_status.
  specialize (Hbody (bump (emit (EvStatusOpen (UI a) (next_id w)) w))).
  destruct (body _); simpl in *; exact Hbody.
Qed.

(** [callDynamicFunc] writes no array, however it ends. *)
Lemma callDynamicFunc_heap a ctx log result c f args w :
  heap (final (callDynamicFunc a ctx log result c f args w)) = heap w.
Proof.
  rewrite callDynamicFunc_eq.
  assert (Hbody : forall rf w0,
    heap (final (callDynamicFunc_body a ctx log result c rf args w0)) = heap w0).
  { intros rf w0.
    by destruct (callDynamicFunc_body_run a ctx log result c rf args w0)
      as (tr & _ & Hh & _). }
  destruct (as_Func f) as [rf|].
  - by apply with_status_heap.
  - cbv zeta. destruct (argmapper_NewFunc f log) as [rf|err]; [|done].
    rewrite with_status_heap; [done|]. apply Hbody.
Qed.

(** C6: the converter slice of an App built by [newApp] lies in an array
    allocated during the construction, so it is no alias of the project's
    slice, and the construction writes to no array that existed before,
    the project's included.  Its elements are the project's converters
    followed by the converters of the plugins loaded, in the order of
    loading; with no plugin to load they are the project's converters.
    [Close] and [callDynamicFunc] write to no array afterwards. *)
Theorem newApp_mappers_copy_then_append ctx p cfg w app w1 :
  newApp ctx p cfg w = Returned (Some app, None) w1 ->
  let tr := events_of (newApp ctx p cfg) w in
  (exists q, s_ptr (mappers app) = Some q /\ (q ∉ dom (heap w))) /\
  (forall x, x ∈ dom (heap w) -> heap w1 !! x = heap w !! x) /\
  elems (heap w1) (mappers app) = elems (heap w) (p_mappers p) ++ exported tr /\
  (from_option (fun f => length (Registered f)) 0 (p_factories p !! MapperType) = 0 ->
   elems (heap w1) (mappers app) = elems (heap w) (p_mappers p)) /\
  (forall w2, heap (final (Close app w2)) = heap w2) /\
  (forall w2 ctx' log result c f args,
     heap (final (callDynamicFunc app ctx' log result c f args w2)) = heap w2).
Proof.
  intros Hrun. destruct (newApp_success _ _ _ _ _ _ Hrun) as (tr & -> & Hpost).
  cbv zeta.
  destruct (np_result _ _ _ _ _ _ Hpost)
    as (Hown & Hel & Hcl & _ & _ & _ & Hcount).
  split.
  { destruct Hown as (q & arr & Hq & HqD & _). eauto. }
  split; [apply (np_frame _ _ _ _ _ _ Hpost)|].
  split; [exact Hel|].
  split.
  { intros Hzero. rewrite Hzero in Hcount.
    rewrite Hel. unfold exported.
    destruct (started tr); [by rewrite app_nil_r|simpl in Hcount; lia]. }
  split.
  { intros w2.
    destruct (Close_plugin_handles app (started tr) w2 Hcl) as (w3 & -> & _ & Hh & _).
    exact Hh. }
  intros. apply callDynamicFunc_heap.
Qed.

(** C9, as the code has it: the path of the source descriptor of an App
    built by [newApp] is the project root as it stands when the configured
    path is empty, and [filepath.Join] of the root and the configured path
    otherwise; [newApp] makes no path absolute, so with an empty
    configured path the result is absolute exactly when the root is. *)
Theorem newApp_source_path ctx p cfg w app w1 :
  newApp ctx p cfg w = Returned (Some app, None) w1 ->
  src_App (source app) = cfg_Name cfg /\
  src_Path (source app)
    = (if decide (cfg_Path cfg = "") then p_root p
       else filepath_Join (p_root p) (cfg_Path cfg)) /\
  (cfg_Path cfg = "" ->
   filepath_IsAbs (src_Path (source app)) = filepath_IsAbs (p_root p)).
Proof.
  intros Hrun. destruct (newApp_success _ _ _ _ _ _ Hrun) as (tr & _ & Hpost).
  destruct (np_result _ _ _ _ _ _ Hpost) as (_ & _ & _ & _ & _ & Hsrc & _).
  rewrite Hsrc. simpl. unfold source_path.
  split; [done|]. split; [done|].
  intros ->. by rewrite decide_True.
Qed.

End Chain.

Lemma newApp_mappers_copy_then_append_witness :
  newApp (E:=demo_env) demo_ctx (demo_project "/src/shop" ["alpha"]) (demo_cfg "")
    demo_world = Returned (Some demo_app, None) demo_app_world /\
  elems (heap demo_app_world) (mappers demo_app)
    = elems (heap demo_world) (p_mappers (demo_project "/src/shop" ["alpha"]))
      ++ [FuncAt 10; FuncAt 11].
Proof.
  assert (H : newApp (E:=demo_env) demo_ctx (demo_project "/src/shop" ["alpha"])
                (demo_cfg "") demo_world
              = Returned (Some demo_app, None) demo_app_world).
  { vm_compute. reflexivity. }
  split; [exact H|].
  exact (proj1 (proj2 (proj2 (newApp_mappers_copy_then_append _ _ _ _ _ _ H)))).
Defined.

Lemma newApp_source_path_witness :
  newApp (E:=demo_env) demo_ctx (demo_project "/src/shop" ["alpha"]) (demo_cfg "")
    demo_world = Returned (Some demo_app, None) demo_app_world /\
  src_Path (source demo_app) = "/src/shop".
Proof.
  assert (H : newApp (E:=demo_env) demo_ctx (demo_project "/src/shop" ["alpha"])
                (demo_cfg "") demo_world
              = Returned (Some demo_app, None) demo_app_world).
  { vm_compute. reflexivity. }
  split; [exact H|].
  exact (proj1 (proj2 (newApp_source_path _ _ _ _ _ _ H))).
Defined.

(** C9, as the specification states it, fails: for a project whose root is
    the relative path "shop" and an App without a configured path,
    [newApp] succeeds and the source path is "shop", which is not
    absolute. *)
Lemma newApp_source_path_counterexample :
  exists app w1,
    newApp (E:=demo_env) demo_ctx (demo_project "shop" []) (demo_cfg "") demo_world
      = Returned (Some app, None) w1 /\
    src_Path (source app) = "shop" /\
    filepath_IsAbs (src_Path (source app)) = false.
Proof.
  eexists _, _. split; [vm_compute; reflexivity|].
  split; reflexivity.
Qed.

(** ** Dynamic invocation *)

Section Invocation.
Context `{E : Env}.

(** The events of the part under the status: the opening, what the body
    adds, the closing. *)
Lemma with_status_events a (body : Go (iface * option error)) (w : World) trb :
  trace (final (body (bump (emit (EvStatusOpen (UI a) (next_id w)) w))))
    = (trace w ++ [EvStatusOpen (UI a) (next_id w)]) ++ trb ->
  trace (final (with_status a body w))
    = trace w ++ [EvStatusOpen (UI a) (next_id w)] ++ trb
              ++ [EvStatusClose (next_id w)].
Proof.
  intros Hb. unfold with_status.
  destruct (body _) as [x w2|msg w2]; simpl in *; rewrite Hb;
    by rewrite <- !app_assoc.
Qed.

(** The two ways [callDynamicFunc] can go: [f] cannot be made a
    [*argmapper.Func] and the error of [NewFunc] is returned at once, or
    the body runs under a status, from the world [w0] with the events
    [pre] of the normalization. *)
Lemma callDynamicFunc_run a ctx log result c f args w :
  (exists err,
     as_Func f = None /\ argmapper_NewFunc f log = inr err /\
     callDynamicFunc a ctx log result c f args w
       = Returned (Nil, Some err) (emit (EvNewFunc f (inr err)) w)) \/
  (exists rawFunc pre w0,
     (as_Func f = Some rawFunc \/
      (as_Func f = None /\ argmapper_NewFunc f log = inl rawFunc)) /\
     trace w0 = trace w ++ pre /\ heap w0 = heap w /\ status_events pre = [] /\
     calls pre = [] /\
     callDynamicFunc a ctx log result c f args w
       = with_status a (callDynamicFunc_body a ctx log result c rawFunc args) w0).
Proof.
  rewrite callDynamicFunc_eq. destruct (as_Func f) as [rf|].
  - right. exists rf, [], w. rewrite app_nil_r. repeat split; auto.
  - cbv zeta. destruct (argmapper_NewFunc f log) as [rf|err] eqn:Hn.
    + right. exists rf, [EvNewFunc f (inl rf)], (emit (EvNewFunc f (inl rf)) w).
      repeat split; auto.
    + left. exists err. auto.
Qed.

(** C4: however an invocation ends, by a return or by a panic, either [f]
    could not be made a [*argmapper.Func], in which case no status was
    opened and nothing was called, or exactly one status of the App's UI
    was opened and that status was closed exactly once, as the last thing
    before [callDynamicFunc] was left.  The second case covers every run
    that reaches the call: success, arguments that cannot be resolved, and
    a call that fails. *)
Theorem callDynamicFunc_releases_status a ctx log result c f args w :
  let run := callDynamicFunc a ctx log result c f args in
  (exists err,
     as_Func f = None /\ argmapper_NewFunc f log = inr err /\
     run w = Returned (Nil, Some err) (final (run w)) /\
     events_of run w = [EvNewFunc f (inr err)]) \/
  (exists sid,
     status_events (events_of run w)
       = [EvStatusOpen (UI a) sid; EvStatusClose sid] /\
     last (events_of run w) = Some (EvStatusClose sid)).
Proof.
  cbv zeta.
  destruct (callDynamicFunc_run a ctx log result c f args w)
    as [(err & Hf & Hn & Hrun)|(rf & pre & w0 & _ & Htr & _ & Hst & _ & Hrun)].
  - left. exists err. rewrite Hrun. simpl. repeat split; auto.
    apply events_of_extends. by rewrite Hrun.
  - right. exists (next_id w0).
    destruct (callDynamicFunc_body_run a ctx log result c rf args
                (bump (emit (EvStatusOpen (UI a) (next_id w0)) w0)))
      as (trb & Hb & _ & _ & Hstb & _).
    pose proof (with_status_events a _ w0 trb Hb) as Hev.
    rewrite <- Hrun, Htr, <- app_assoc in Hev.
    rewrite (events_of_extends _ _ _ Hev).
    split.
    + rewrite !status_events_app, Hst, Hstb. reflexivity.
    + rewrite !app_assoc. apply last_snoc.
Qed.

Lemma with_status_finish a (body : Go (iface * option error)) (w : World) x w2 :
  body (bump (emit (EvStatusOpen (UI a) (next_id w)) w)) = finish x w2 ->
  with_status a body w = finish x (emit (EvStatusClose (next_id w)) w2).
Proof. intros Hb. unfold with_status. rewrite Hb. by destruct x. Qed.

(** A run that dispatched a call ends the way the outcome of the call
    decides. *)
Lemma callDynamicFunc_called a ctx log result c f args w rawFunc args' o :
  (rawFunc, args', o)
    ∈ calls (events_of (callDynamicFunc a ctx log result c f args) w) ->
  callDynamicFunc a ctx log result c f args w
    = finish (after_call result o)
        (final (callDynamicFunc a ctx log result c f args w)).
Proof.
  destruct (callDynamicFunc_run a ctx log result c f args w)
    as [(err & Hf & Hn & Hrun)|(rf & pre & w0 & Hnorm & Htr & Hh & Hst & Hcl & Hrun)].
  - rewrite (events_of_extends _ w [EvNewFunc f (inr err)]) by (by rewrite Hrun).
    intros Hin. by apply elem_of_nil in Hin.
  - set (w1 := bump (emit (EvStatusOpen (UI a) (next_id w0)) w0)).
    destruct (callDynamicFunc_body_run a ctx log result c rf args w1)
      as (trb & Hb & _ & _ & _ & Hshape).
    pose proof (with_status_events a _ w0 trb Hb) as Hev.
    rewrite <- Hrun, Htr, <- app_assoc in Hev.
    rewrite (events_of_extends _ _ _ Hev).
    rewrite !calls_app, Hcl.
    destruct c as [comp|].
    + cbv zeta in Hshape. subst trb. simpl. intros Hin.
      apply list_elem_of_singleton in Hin. injection Hin as -> -> ->.
      rewrite Hrun at 1.
      rewrite (with_status_finish a _ w0 _ _
                 (callDynamicFunc_body_eq a ctx log result (Some comp) rf args w1)).
      rewrite Hrun.
      rewrite (with_status_finish a _ w0 _ _
                 (callDynamicFunc_body_eq a ctx log result (Some comp) rf args w1)).
      by rewrite final_finish.
    + subst trb. simpl. intros Hin. by apply elem_of_nil in Hin.
Qed.



(** C10, as the code has it: once [f] is a [*argmapper.Func], by itself
    or through [NewFunc], an invocation with a nil component panics on
    the nil pointer: no call is dispatched, and the status opened before
    is closed on the way out.  (When [NewFunc] fails, its error is
    returned before the component is looked at.) *)
Theorem callDynamicFunc_nil_component a ctx log result f args w rawFunc :
  let run := callDynamicFunc a ctx log result None f args in
  normalize f log = inl rawFunc ->
  (exists w',
     run w = Panicked "invalid memory address or nil pointer dereference" w') /\
  calls (events_of run w) = [] /\
  (exists sid, last (events_of run w) = Some (EvStatusClose sid)).
Proof.
  cbv zeta. intros Hnorm.
  destruct (callDynamicFunc_run a ctx log result None f args w)
    as [(err & Hf & Hn & Hrun)|(rf & pre & w0 & _ & Htr & _ & _ & Hcl & Hrun)].
  - unfold normalize in Hnorm. rewrite Hf, Hn in Hnorm. discriminate.
  - set (w1 := bump (emit (EvStatusOpen (UI a) (next_id w0)) w0)).
    assert (Hb : callDynamicFunc_body a ctx log result None rf args w1
                 = finish (inl "invalid memory address or nil pointer dereference") w1).
    { by rewrite callDynamicFunc_body_eq. }
    rewrite Hrun, (with_status_finish a _ w0 _ _ Hb). simpl.
    split; [eauto|].
    assert (Hev : trace (final (callDynamicFunc a ctx log result None f args w))
                  = trace w ++ pre ++ [EvStatusOpen (UI a) (next_id w0);
                                       EvStatusClose (next_id w0)]).
    { rewrite Hrun, (with_status_finish a _ w0 _ _ Hb). simpl.
      rewrite Htr. by rewrite <- !app_assoc. }
    rewrite (events_of_extends _ _ _ Hev), calls_app, Hcl.
    split; [reflexivity|].
    exists (next_id w0).
    change [EvStatusOpen (UI a) (next_id w0); EvStatusClose (next_id w0)]
      with ([EvStatusOpen (UI a) (next_id w0)] ++ [EvStatusClose (next_id w0)]).
    rewrite !app_assoc. apply last_snoc.
Qed.

End Invocation.



(** The same invocation with the function 2, whose result has type 4: the
    error names the interface and the type produced. *)
Example callDynamicFunc_mismatch :
  exists w',
    callDynamicFunc (E:=demo_env) demo_app demo_ctx demo_log (Boxed (RType 1) 0)
      (Some demo_component) (Boxed (RType 0) 2) [] demo_app_world
    = Returned
        (Nil, Some (StatusError FailedPrecondition
           "operation expected result type component.ReleaseManager, got *docker.Builder"))
        w'.
Proof. eexists. vm_compute. reflexivity. Qed.


Lemma callDynamicFunc_nil_component_witness :
  normalize (E:=demo_env) (Boxed (RType 0) 1) demo_log = inl (FuncAt 1) /\
  exists w',
    callDynamicFunc (E:=demo_env) demo_app demo_ctx demo_log Nil None
      (Boxed (RType 0) 1) [] demo_app_world
    = Panicked "invalid memory address or nil pointer dereference" w'.
Proof.
  split; [reflexivity|].
  apply (callDynamicFunc_nil_component (E:=demo_env) demo_app demo_ctx demo_log Nil
           (Boxed (RType 0) 1) [] demo_app_world (FuncAt 1)).
  reflexivity.
Defined.

(** C10, as the claim states it, fails: with a nil component and a value
    [f] that [NewFunc] rejects, [callDynamicFunc] returns the error of
    [NewFunc] and does not panic. *)
Lemma callDynamicFunc_nil_component_counterexample :
  exists w',
    callDynamicFunc (E:=demo_env) demo_app demo_ctx demo_log Nil None
      (Boxed (RType 4) 0) [] demo_app_world
    = Returned (Nil, Some (OpaqueError 3)) w' /\
  panics (callDynamicFunc (E:=demo_env) demo_app demo_ctx demo_log Nil None
            (Boxed (RType 4) 0) [] demo_app_world) = false.
Proof. eexists. split; vm_compute; reflexivity. Qed.

(** ** Labels *)

Section LabelLemmas.

Implicit Types (base m : gmap string string) (ls : list (gmap string string)).

Lemma merge_lookup_none base ls (k : string) :
  (forall m, m ∈ ls -> m !! k = None) ->
  foldl (fun acc m => m ∪ acc) base ls !! k = base !! k.
Proof.
  revert base. induction ls as [|m ls IH]; intros base Hnone; [done|].
  simpl. rewrite IH.
  - rewrite lookup_union_r; [done|]. apply Hnone. apply list_elem_of_here.
  - intros m' Hm'. apply Hnone. by apply list_elem_of_further.
Qed.

Lemma merge_lookup_rightmost base ls1 m ls2 (k v : string) :
  m !! k = Some v ->
  (forall m', m' ∈ ls2 -> m' !! k = None) ->
  foldl (fun acc m => m ∪ acc) base (ls1 ++ m :: ls2) !! k = Some v.
Proof.
  intros Hm Hnone. rewrite foldl_app. simpl.
  rewrite merge_lookup_none by done.
  by apply lookup_union_Some_l.
Qed.

Lemma merge_lookup_is_Some base ls (k : string) :
  is_Some (foldl (fun acc m => m ∪ acc) base ls !! k) <->
  is_Some (base !! k) \/ exists m, m ∈ ls /\ is_Some (m !! k).
Proof.
  revert base. induction ls as [|m ls IH]; intros base; simpl.
  - split; [by left|]. intros [H|(m & Hm & _)]; [done|by apply elem_of_nil in Hm].
  - rewrite IH. rewrite <- !elem_of_dom, dom_union, elem_of_union.
    split.
    + intros [[Hm|Hb]|(m' & Hm' & Hk)].
      * right. exists m. split; [apply list_elem_of_here|by apply elem_of_dom].
      * by left.
      * right. exists m'. split; [by apply list_elem_of_further|done].
    + intros [Hb|(m' & Hm' & Hk)].
      * left. by right.
      * apply elem_of_cons in Hm' as [->|Hm'].
        -- left. left. by apply elem_of_dom.
        -- right. eauto.
Qed.

(** C5, as the model of the project's merge has it: in [mergeLabels] the
    project's default labels are the lowest layer, the App's configured
    labels lie above them, and the override sets above those, from left
    to right.  A key defined by an override set takes the value of the
    rightmost set that defines it; a key no override set defines keeps
    the App's configured value, and below that the project's default; a
    key is defined in the result exactly when some layer defines it, so
    nothing is dropped.  Without override sets the result is the App's
    configured labels over the project's defaults; the labels
    env=staging, team=infra overridden by env=prod give env=prod,
    team=infra over the project's defaults; an override leaves every key
    it does not define as it is without the override.  For a project
    without defaults these are the App's configured labels unchanged, and
    env=prod, team=infra. *)
Theorem mergeLabels_precedence (a : App) :
  (forall ls1 m ls2 (k v : string),
     m !! k = Some v ->
     (forall m', m' ∈ ls2 -> m' !! k = None) ->
     mergeLabels a (ls1 ++ m :: ls2) !! k = Some v) /\
  (forall ls (k : string),
     (forall m, m ∈ ls -> m !! k = None) ->
     mergeLabels a ls !! k
       = (cfg_Labels (config a) ∪ p_labels (project a)) !! k) /\
  (forall ls (k : string),
     is_Some (mergeLabels a ls !! k) <->
     is_Some (p_labels (project a) !! k) \/
     is_Some (cfg_Labels (config a) !! k) \/
     exists m, m ∈ ls /\ is_Some (m !! k)) /\
  mergeLabels a [] = cfg_Labels (config a) ∪ p_labels (project a) /\
  (cfg_Labels (config a) = {[ "env" := "staging"; "team" := "infra" ]} ->
   mergeLabels a [ {[ "env" := "prod" ]} ]
     = {[ "env" := "prod"; "team" := "infra" ]} ∪ p_labels (project a)) /\
  (forall m (k : string),
     m !! k = None ->
     mergeLabels a [m] !! k = mergeLabels a [] !! k) /\
  (forall (k v : string),
     mergeLabels a [ {[ k := v ]} ]
       = <[ k := v ]> (cfg_Labels (config a) ∪ p_labels (project a))) /\
  (p_labels (project a) = ∅ ->
   mergeLabels a [] = cfg_Labels (config a) /\
   (cfg_Labels (config a) = {[ "env" := "staging"; "team" := "infra" ]} ->
    mergeLabels a [ {[ "env" := "prod" ]} ]
      = {[ "env" := "prod"; "team" := "infra" ]}) /\
   (forall (k v : string),
      cfg_Labels (config a) !! k = None ->
      mergeLabels a [ {[ k := v ]} ] = <[ k := v ]> (cfg_Labels (config a)) /\
      forall k', k' <> k ->
        mergeLabels a [ {[ k := v ]} ] !! k' = cfg_Labels (config a) !! k')).
Proof.
  unfold mergeLabels, Project_mergeLabels.
  split; [|split; [|split; [|split; [|split; [|split; [|split]]]]]].
  - intros ls1 m ls2 k v Hm Hnone.
    change ([cfg_Labels (config a)] ++ ls1 ++ m :: ls2)
      with ((cfg_Labels (config a) :: ls1) ++ m :: ls2).
    by apply merge_lookup_rightmost.
  - intros ls k Hnone. simpl. by apply merge_lookup_none.
  - intros ls k. simpl. rewrite merge_lookup_is_Some.
    rewrite <- !elem_of_dom, dom_union, elem_of_union. tauto.
  - reflexivity.
  - intros ->. simpl. rewrite (assoc_L (∪)). f_equal.
  - intros m k Hk. simpl. by rewrite lookup_union_r.
  - intros k v. simpl. by rewrite insert_union_singleton_l.
  - intros Hempty. rewrite Hempty. simpl.
    split; [by rewrite (right_id_L ∅ (∪))|].
    split.
    + intros ->. vm_compute. reflexivity.
    + intros k v Hk. rewrite (right_id_L ∅ (∪)).
      split.
      * by rewrite insert_union_singleton_l.
      * intros k' Hne. rewrite lookup_union_r; [done|].
        by rewrite lookup_singleton_ne.
Qed.

End LabelLemmas.

Lemma mergeLabels_precedence_witness :
  p_labels (project demo_app) = ∅ /\
  mergeLabels demo_app [ {[ "env" := "prod" ]} ]
    = {[ "env" := "prod"; "team" := "infra" ]}.
Proof.
  split; [reflexivity|].
  destruct (mergeLabels_precedence demo_app) as (_ & _ & _ & _ & _ & _ & _ & H).
  destruct (H eq_refl) as (_ & Hex & _).
  exact (Hex eq_refl).
Defined.

(** C5, as the specification states it, fails: for an App whose project
    has the default label region=us, the merge without override sets is
    not the App's configured labels, and the labels env=staging,
    team=infra overridden by env=prod are not env=prod, team=infra: the
    default is there too. *)
Lemma mergeLabels_counterexample :
  cfg_Labels (config demo_app_defaults) = {[ "env" := "staging"; "team" := "infra" ]} /\
  mergeLabels demo_app_defaults [] <> cfg_Labels (config demo_app_defaults) /\
  mergeLabels demo_app_defaults [ {[ "env" := "prod" ]} ]
    <> {[ "env" := "prod"; "team" := "infra" ]} /\
  mergeLabels demo_app_defaults [] !! "region" = Some "us".
Proof.
  split; [reflexivity|]. split; [|split].
  - intros H. apply (f_equal (fun m : gmap string string => m !! "region")) in H.
    vm_compute in H. discriminate.
  - intros H. apply (f_equal (fun m : gmap string string => m !! "region")) in H.
    vm_compute in H. discriminate.
  - vm_compute. reflexivity.
Qed.

(** ** The exits of an invocation in the small installation *)

(** The call fails (function 3): the error is returned as it is, the
    status is closed last. *)
Example status_closed_when_call_fails :
  let run := callDynamicFunc (E:=demo_env) demo_app demo_ctx demo_log Nil
               (Some demo_component) (Boxed (RType 0) 3) [] in
  (exists w', run demo_app_world = Returned (Nil, Some (OpaqueError 4)) w') /\
  status_events (events_of run demo_app_world)
    = [EvStatusOpen {| ui_id := 0 |} 1; EvStatusClose 1] /\
  last (events_of run demo_app_world) = Some (EvStatusClose 1).
Proof.
  cbv zeta. split; [eexists; vm_compute; reflexivity|].
  split; vm_compute; reflexivity.
Qed.

(** The call panics (function 4): the panic goes on, the status is closed
    before. *)
Example status_closed_when_call_panics :
  let run := callDynamicFunc (E:=demo_env) demo_app demo_ctx demo_log Nil
               (Some demo_component) (Boxed (RType 0) 4) [] in
  (exists w', run demo_app_world = Panicked "plugin crashed" w') /\
  status_events (events_of run demo_app_world)
    = [EvStatusOpen {| ui_id := 0 |} 1; EvStatusClose 1].
Proof.
  cbv zeta. split; [eexists; vm_compute; reflexivity|].
  vm_compute. reflexivity.
Qed.

(** [NewFunc] rejects [f]: no status is opened. *)
Example no_status_when_NewFunc_fails :
  let run := callDynamicFunc (E:=demo_env) demo_app demo_ctx demo_log Nil
               (Some demo_component) (Boxed (RType 4) 0) [] in
  events_of run demo_app_world
    = [EvNewFunc (Boxed (RType 4) 0) (inr (OpaqueError 3))].
Proof. vm_compute. reflexivity. Qed.

(** Without a mapper plugin the App's converters are the project's, in
    an array of their own. *)
Example newApp_without_plugins :
  exists app w1,
    newApp (E:=demo_env) demo_ctx (demo_project "/src/shop" []) (demo_cfg "web")
      demo_world = Returned (Some app, None) w1 /\
    elems (heap w1) (mappers app) = [FuncAt 1] /\
    s_ptr (mappers app) <> s_ptr (p_mappers (demo_project "/src/shop" [])) /\
    src_Path (source app) = "/src/shop/web".
Proof.
  eexists _, _. split; [vm_compute; reflexivity|].
  split; [vm_compute; reflexivity|]. split; [vm_compute; discriminate|].
  vm_compute. reflexivity.
Qed.

(** ** More on construction *)

Section MoreConstruction.
Context `{E : Env}.

Lemma append_returns s xs w :
  exists s' w',
    append s xs w = Returned s' w' /\
    trace w' = trace w /\ next_id w' = next_id w.
Proof.
  unfold append. case_decide.
  - destruct (s_ptr s); eauto.
  - eauto.
Qed.

(** [newApp], step by step, behind the copy of the project's converters. *)
Lemma newApp_unfold ctx p cfg w :
  exists s w1,
    trace w1 = trace w /\ next_id w1 = next_id w /\
    newApp ctx p cfg w =
      let r := datadir_App (trace w) (p_dir p) (cfg_Name cfg) in
      let w2 := emit (EvDirApp (cfg_Name cfg) r) w1 in
      match r with
      | inr err => Returned (None, Some err) w2
      | inl d =>
          match p_factories p !! MapperType with
          | Some f =>
              match initMappers_loop (set_dir (Some d) (initial_app p cfg s))
                      ctx f (Registered f) w2 with
              | Returned ar w' =>
                  match snd ar with
                  | Some err => Returned (None, Some err) w'
                  | None => Returned (Some (fst ar), None) w'
                  end
              | Panicked msg w' => Panicked msg w'
              end
          | None => Returned (Some (set_dir (Some d) (initial_app p cfg s)), None) w2
          end
      end.
Proof.
  destruct (copy_mappers_spec p w)
    as (s & w1 & Hcopy & Htr1 & Hnx1 & _).
  exists s, w1. split; [done|]. split; [done|].
  unfold newApp. unfold mbind at 1 2 3, Go_bind at 1 2 3.
  unfold mbind, Go_bind in Hcopy.
  destruct (slice_lit w) as [lit w0|] eqn:Hlit; [|discriminate].
  unfold read_slice in *. rewrite Hcopy.
  unfold mbind at 1, Go_bind at 1. unfold Project_dir_App. rewrite Htr1.
  cbv zeta.
  destruct (datadir_App (trace w) (p_dir p) (cfg_Name cfg)) as [d|err]; [|reflexivity].
  destruct (p_factories p !! MapperType) as [f|]; [|reflexivity].
  unfold mbind, Go_bind, initMappers, initial_app, source_path.
  destruct (initMappers_loop _ _ _ _ _) as [[a' r] w'|]; [|reflexivity].
  simpl. destruct r; reflexivity.
Qed.

(** The loop of [initMappers], as to the names: it attempts the names in
    order, and stops behind the first that fails. *)
Lemma initMappers_loop_names ctx f names : forall a w,
  exists a' r w' tr,
    initMappers_loop a ctx f names w = Returned (a', r) w' /\
    trace w' = trace w ++ tr /\
    set_closers [] (set_mappers nil_slice a')
      = set_closers [] (set_mappers nil_slice a) /\
    match r with
    | None => started_names tr = names /\ failed tr = []
    | Some err =>
        exists name rest,
          names = started_names tr ++ name :: rest /\
          failed tr = [(name, err)]
    end.
Proof.
  induction names as [|name rest IH]; intros a w.
  - exists a, None, w, []. rewrite app_nil_r. repeat split; reflexivity.
  - rewrite initMappers_loop_cons. cbv zeta.
    set (w1 := emit _ w).
    destruct (plugin_start (trace w1) MapperType f name) as [ms|err].
    + set (pinst := {| inst_pid := next_id w1; Mappers := ms |}).
      set (w2 := bump (emit (EvPluginStarted pinst name) w1)).
      destruct (append_returns (mappers a) ms w2) as (s & w3 & Happ & Htr & _).
      rewrite Happ.
      destruct (IH (set_closers (closers a ++ [plugin_closer pinst]) (set_mappers s a)) w3)
        as (a' & r & w' & tr & Hrun & Htr' & Hfields & Hres).
      exists a', r, w', ([EvLogDebug (logger a) "loading mapper plugin" name;
                          EvPluginStarted pinst name] ++ tr).
      split; [exact Hrun|]. split.
      { rewrite Htr', Htr. simpl. by rewrite <- !app_assoc. }
      split; [by rewrite Hfields|].
      change (started_names ([EvLogDebug (logger a) "loading mapper plugin" name;
                              EvPluginStarted pinst name] ++ tr))
        with (name :: started_names tr).
      change (failed ([EvLogDebug (logger a) "loading mapper plugin" name;
                       EvPluginStarted pinst name] ++ tr))
        with (failed tr).
      destruct r as [err|].
      * destruct Hres as (nm & rest' & -> & Hfail). exists nm, rest'. done.
      * destruct Hres as (-> & Hfail). done.
    + exists a, (Some err), (emit (EvPluginFailed name err) w1),
        [EvLogDebug (logger a) "loading mapper plugin" name; EvPluginFailed name err].
      split; [reflexivity|]. split; [simpl; by rewrite <- app_assoc|].
      split; [done|]. exists name, rest. done.
Qed.

Lemma newApp_dir_fails ctx p cfg w err :
  datadir_App (trace w) (p_dir p) (cfg_Name cfg) = inr err ->
  (exists w', newApp ctx p cfg w = Returned (None, Some err) w') /\
  events_of (newApp ctx p cfg) w = [EvDirApp (cfg_Name cfg) (inr err)].
Proof.
  intros Hdir. destruct (newApp_unfold ctx p cfg w) as (s & w1 & Htr1 & _ & Heq).
  rewrite Hdir in Heq. cbv zeta in Heq.
  split; [rewrite Heq; eauto|].
  apply events_of_extends. rewrite Heq. simpl. by rewrite Htr1.
Qed.

(** X2: [newApp] returns, and it returns either an App and no error, or
    an error and no App. *)
Theorem newApp_app_or_error ctx p cfg w :
  exists w',
    (exists app, newApp ctx p cfg w = Returned (Some app, None) w') \/
    (exists err, newApp ctx p cfg w = Returned (None, Some err) w').
Proof.
  destruct (newApp_spec ctx p cfg w) as (r & w' & tr & Hrun & Hpost).
  pose proof (np_result _ _ _ _ _ _ Hpost) as Hres.
  exists w'. destruct r as [[app|] [err|]]; try done; eauto.
Qed.

Lemma newApp_fields ctx p cfg w app w1 :
  newApp ctx p cfg w = Returned (Some app, None) w1 ->
  Ref app = {| Application := cfg_Name cfg; Project_ := p_name p |} /\
  project app = p /\ config app = cfg /\
  workspace app = WorkspaceRef p /\ client app = p_client p /\
  jobInfo app = p_jobInfo p /\ UI app = p_UI p /\
  logger app = Logger_Named (Logger_Named (p_logger p) "app") (cfg_Name cfg) /\
  exists d,
    dir app = Some d /\
    datadir_App (trace w) (p_dir p) (cfg_Name cfg) = inl d.
Proof.
  intros Hrun. destruct (newApp_unfold ctx p cfg w) as (s & w0 & _ & _ & Heq).
  rewrite Hrun in Heq. cbv zeta in Heq.
  destruct (datadir_App (trace w) (p_dir p) (cfg_Name cfg)) as [d|err]; [|discriminate].
  assert (Hfields : set_closers [] (set_mappers nil_slice app)
                    = set_closers [] (set_mappers nil_slice
                                        (set_dir (Some d) (initial_app p cfg s)))).
  { destruct (p_factories p !! MapperType) as [f|].
    - destruct (initMappers_loop_names ctx f (Registered f)
                  (set_dir (Some d) (initial_app p cfg s))
                  (emit (EvDirApp (cfg_Name cfg) (inl d)) w0))
        as (a' & r & w' & tr & Hloop & _ & Hf & _).
      rewrite Hloop in Heq. simpl in Heq. destruct r; [discriminate|].
      injection Heq as -> _. exact Hf.
    - injection Heq as -> _. reflexivity. }
  unfold Ref.
  split; [exact (f_equal ref Hfields)|].
  split; [exact (f_equal project Hfields)|].
  split; [exact (f_equal config Hfields)|].
  split; [exact (f_equal workspace Hfields)|].
  split; [exact (f_equal client Hfields)|].
  split; [exact (f_equal jobInfo Hfields)|].
  split; [exact (f_equal UI Hfields)|].
  split; [exact (f_equal logger Hfields)|].
  exists d. split; [exact (f_equal dir Hfields)|reflexivity].
Qed.

(** X4: for a project without a mapper factory, [newApp] succeeds as soon
    as the data directory is obtained; it starts no plugin, and the App has
    no shutdown handle and exactly the project's converters. *)
Theorem newApp_without_mapper_factory ctx p cfg w d :
  p_factories p !! MapperType = None ->
  datadir_App (trace w) (p_dir p) (cfg_Name cfg) = inl d ->
  exists app w1,
    newApp ctx p cfg w = Returned (Some app, None) w1 /\
    events_of (newApp ctx p cfg) w = [EvDirApp (cfg_Name cfg) (inl d)] /\
    closers app = [] /\
    elems (heap w1) (mappers app) = elems (heap w) (p_mappers p).
Proof.
  intros Hf Hdir.
  destruct (newApp_unfold ctx p cfg w) as (s & w0 & Htr0 & _ & Heq).
  rewrite Hdir, Hf in Heq. cbv zeta in Heq.
  eexists _, _. split; [exact Heq|].
  assert (Hev : events_of (newApp ctx p cfg) w = [EvDirApp (cfg_Name cfg) (inl d)]).
  { apply events_of_extends. rewrite Heq. simpl. by rewrite Htr0. }
  split; [exact Hev|]. split; [reflexivity|].
  destruct (newApp_success _ _ _ _ _ _ Heq) as (tr & Htr & Hpost).
  destruct (np_result _ _ _ _ _ _ Hpost) as (_ & Hel & _).
  rewrite Hel. rewrite Hev in Htr. subst tr. by rewrite app_nil_r.
Qed.

(** The run of the loop inside [newApp], when the directory is there and
    a mapper factory is registered. *)
Lemma newApp_loop_run ctx p cfg w d f :
  datadir_App (trace w) (p_dir p) (cfg_Name cfg) = inl d ->
  p_factories p !! MapperType = Some f ->
  exists a' r w' tr,
    newApp ctx p cfg w
      = Returned (match r with
                  | Some err => (None, Some err)
                  | None => (Some a', None)
                  end) w' /\
    events_of (newApp ctx p cfg) w = EvDirApp (cfg_Name cfg) (inl d) :: tr /\
    match r with
    | None => started_names tr = Registered f /\ failed tr = []
    | Some err =>
        exists name rest,
          Registered f = started_names tr ++ name :: rest /\
          failed tr = [(name, err)]
    end.
Proof.
  intros Hdir Hf.
  destruct (newApp_unfold ctx p cfg w) as (s & w0 & Htr0 & _ & Heq).
  rewrite Hdir, Hf in Heq. cbv beta iota zeta in Heq.
  destruct (initMappers_loop_names ctx f (Registered f)
              (set_dir (Some d) (initial_app p cfg s))
              (emit (EvDirApp (cfg_Name cfg) (inl d)) w0))
    as (a' & r & w' & tr & Hloop & Htr & _ & Hres).
  rewrite Hloop in Heq. simpl in Heq.
  exists a', r, w', tr.
  assert (Hrun : newApp ctx p cfg w
                 = Returned (match r with
                             | Some err => (None, Some err)
                             | None => (Some a', None)
                             end) w').
  { rewrite Heq. by destruct r. }
  split; [exact Hrun|]. split; [|exact Hres].
  apply events_of_extends. rewrite Hrun. simpl. rewrite Htr. simpl.
  rewrite Htr0. by rewrite <- app_assoc.
Qed.

(** X5: when [newApp] succeeds, the plugins it has started are the names
    the mapper factory has registered, each once, in that order. *)
Theorem newApp_loads_in_registration_order ctx p cfg w f app w1 :
  p_factories p !! MapperType = Some f ->
  newApp ctx p cfg w = Returned (Some app, None) w1 ->
  started_names (events_of (newApp ctx p cfg) w) = Registered f.
Proof.
  intros Hf Hrun.
  destruct (newApp_fields _ _ _ _ _ _ Hrun) as (_ & _ & _ & _ & _ & _ & _ & _ & d & _ & Hdir).
  destruct (newApp_loop_run ctx p cfg w d f Hdir Hf)
    as (a' & r & w' & tr & Hrun' & -> & Hres).
  rewrite Hrun in Hrun'. destruct r; [discriminate|].
  by destruct Hres as (Hnames & _).
Qed.

(** X6: when a plugin fails to start, the plugins started before it are
    the names registered before it, in order, and no name registered
    behind it is attempted: the failure is the only one of the run. *)
Theorem newApp_stops_at_first_failure ctx p cfg w f name err :
  p_factories p !! MapperType = Some f ->
  (name, err) ∈ failed (events_of (newApp ctx p cfg) w) ->
  (exists rest,
     Registered f = started_names (events_of (newApp ctx p cfg) w) ++ name :: rest) /\
  failed (events_of (newApp ctx p cfg) w) = [(name, err)].
Proof.
  intros Hf Hin.
  destruct (datadir_App (trace w) (p_dir p) (cfg_Name cfg)) as [d|err'] eqn:Hdir.
  - destruct (newApp_loop_run ctx p cfg w d f Hdir Hf)
      as (a' & r & w' & tr & Hrun' & Hev & Hres).
    rewrite Hev in *.
    change (failed (EvDirApp (cfg_Name cfg) (inl d) :: tr)) with (failed tr) in *.
    change (started_names (EvDirApp (cfg_Name cfg) (inl d) :: tr))
      with (started_names tr).
    destruct r as [err'|].
    + destruct Hres as (nm & rest & Hnames & Hfail). rewrite Hfail in *.
      apply list_elem_of_singleton in Hin. injection Hin as -> ->.
      split; [eauto|done].
    + destruct Hres as (_ & Hfail). rewrite Hfail in Hin.
      by apply elem_of_nil in Hin.
  - destruct (newApp_dir_fails ctx p cfg w err' Hdir) as (_ & Hev).
    rewrite Hev in Hin. by apply elem_of_nil in Hin.
Qed.

(** X1: when the data directory of the App cannot be obtained, [newApp]
    returns the error of the directory and no App, and has done nothing
    else to the outside: no plugin was started. *)
Theorem newApp_directory_failure ctx p cfg w err :
  datadir_App (trace w) (p_dir p) (cfg_Name cfg) = inr err ->
  (exists w', newApp ctx p cfg w = Returned (None, Some err) w') /\
  events_of (newApp ctx p cfg) w = [EvDirApp (cfg_Name cfg) (inr err)].
Proof. apply newApp_dir_fails. Qed.

(** X3: an App built by [newApp] carries the identity of its project and
    configuration: its reference names the configured application and the
    project; workspace, client, job information and UI are the project's;
    the logger is the project's, named "app" and then by the application;
    the directory is the one the project's data directory returned. *)
Theorem newApp_identity ctx p cfg w app w1 :
  newApp ctx p cfg w = Returned (Some app, None) w1 ->
  Ref app = {| Application := cfg_Name cfg; Project_ := p_name p |} /\
  project app = p /\ config app = cfg /\
  workspace app = WorkspaceRef p /\ client app = p_client p /\
  jobInfo app = p_jobInfo p /\ UI app = p_UI p /\
  logger app = Logger_Named (Logger_Named (p_logger p) "app") (cfg_Name cfg) /\
  exists d,
    dir app = Some d /\
    datadir_App (trace w) (p_dir p) (cfg_Name cfg) = inl d.
Proof. apply newApp_fields. Qed.

Lemma frame_elems (D : gset nat) (h h' : gmap nat (list FuncPtr)) (s : slice) :
  (forall x, x ∈ D -> h' !! x = h !! x) ->
  (forall q, s_ptr s = Some q -> q ∈ D) ->
  elems h' s = elems h s.
Proof.
  intros Hfr Hs. unfold elems, backing. destruct (s_ptr s) as [q|]; [|done].
  by rewrite Hfr by auto.
Qed.

(** X7: building an App leaves the converters of the project as they
    were, whatever room the project's slice has behind its length and
    however the construction ends. *)
Theorem newApp_leaves_project_chain ctx p cfg w :
  allocated (heap w) (p_mappers p) ->
  elems (heap (final (newApp ctx p cfg w))) (p_mappers p)
    = elems (heap w) (p_mappers p).
Proof.
  intros Halloc.
  destruct (newApp_spec ctx p cfg w) as (r & w' & tr & Hrun & Hpost).
  rewrite Hrun. simpl.
  eapply frame_elems; [apply (np_frame _ _ _ _ _ _ Hpost)|exact Halloc].
Qed.

(** X8: two Apps never share converters: a construction that follows
    the construction of an App, for any project and configuration and
    however it ends, leaves the converters of that App as they were, and
    an App it builds has its converters in another array. *)
Theorem newApp_apps_do_not_share ctx p cfg w app1 w1 ctx' p' cfg' :
  newApp ctx p cfg w = Returned (Some app1, None) w1 ->
  elems (heap (final (newApp ctx' p' cfg' w1))) (mappers app1)
    = elems (heap w1) (mappers app1) /\
  forall app2 w2,
    newApp ctx' p' cfg' w1 = Returned (Some app2, None) w2 ->
    s_ptr (mappers app2) <> s_ptr (mappers app1).
Proof.
  intros Hrun1.
  destruct (newApp_success _ _ _ _ _ _ Hrun1) as (tr1 & _ & Hpost1).
  destruct (np_result _ _ _ _ _ _ Hpost1) as (Hown1 & _).
  destruct Hown1 as (q1 & arr1 & Hq1 & _ & Hh1 & _).
  assert (Hdom1 : q1 ∈ dom (heap w1)) by (apply elem_of_dom; eauto).
  destruct (newApp_spec ctx' p' cfg' w1) as (r & w' & tr & Hrun & Hpost).
  split.
  - rewrite Hrun. simpl.
    eapply frame_elems; [apply (np_frame _ _ _ _ _ _ Hpost)|].
    intros q Hq. rewrite Hq1 in Hq. by injection Hq as <-.
  - intros app2 w2 Hrun2. rewrite Hrun2 in Hrun. injection Hrun as <- <-.
    destruct (np_result _ _ _ _ _ _ Hpost) as (Hown2 & _).
    destruct Hown2 as (q2 & arr2 & Hq2 & Hfresh & _).
    rewrite Hq1, Hq2. intros [= ->]. done.
Qed.

End MoreConstruction.

(** ** More on invocation *)

Section MoreInvocation.
Context `{E : Env}.

(** The part under the status, from a world [w0]: its events and its
    end. *)
Lemma with_status_body a ctx log result c rawFunc args w0 :
  let opened := [EvStatusOpen (UI a) (next_id w0)] in
  let run := with_status a (callDynamicFunc_body a ctx log result c rawFunc args) in
  match c with
  | None =>
      trace (final (run w0)) = trace w0 ++ opened ++ [EvStatusClose (next_id w0)] /\
      run w0 = Panicked "invalid memory address or nil pointer dereference"
                 (final (run w0))
  | Some comp =>
      let args' := call_args a ctx log (c_labels comp) (elems (heap w0) (mappers a)) args in
      let o := argmapper_Call (trace w0 ++ opened) rawFunc args' in
      trace (final (run w0))
        = trace w0 ++ opened ++ [EvCall rawFunc args' o]
                   ++ [EvStatusClose (next_id w0)] /\
      run w0 = finish (after_call result o) (final (run w0))
  end.
Proof.
  cbv zeta.
  set (w1 := bump (emit (EvStatusOpen (UI a) (next_id w0)) w0)).
  pose proof (callDynamicFunc_body_eq a ctx log result c rawFunc args w1) as Hb.
  destruct c as [comp|].
  - cbv zeta in Hb.
    rewrite (with_status_finish a _ w0 _ _ Hb), final_finish. simpl.
    split; [by rewrite <- !app_assoc|reflexivity].
  - change (Panicked "invalid memory address or nil pointer dereference" w1)
      with (finish (A:=iface * option error)
              (inl "invalid memory address or nil pointer dereference") w1) in Hb.
    rewrite (with_status_finish a _ w0 _ _ Hb). simpl.
    split; [by rewrite <- !app_assoc|reflexivity].
Qed.

(** The events of an invocation are those read off the source. *)
Lemma callDynamicFunc_events a ctx log result c f args w :
  events_of (callDynamicFunc a ctx log result c f args) w
    = invocation_events a ctx log c f args w.
Proof.
  apply events_of_extends. rewrite callDynamicFunc_eq.
  unfold invocation_events, normalize.
  destruct (as_Func f) as [rf|].
  - pose proof (with_status_body a ctx log result c rf args w) as Hs.
    cbv zeta in Hs. destruct c as [comp|]; destruct Hs as (Htr & _);
      rewrite Htr; reflexivity.
  - cbv zeta. destruct (argmapper_NewFunc f log) as [rf|err]; [|reflexivity].
    pose proof (with_status_body a ctx log result c rf args
                  (emit (EvNewFunc f (inl rf)) w)) as Hs.
    cbv zeta in Hs. destruct c as [comp|]; destruct Hs as (Htr & _);
      rewrite Htr; simpl; rewrite <- !app_assoc; reflexivity.
Qed.

Lemma callDynamicFunc_calls_once_aux a ctx log result comp f args w rawFunc :
  normalize f log = inl rawFunc ->
  exists args' o,
    args' = call_args a ctx log (c_labels comp) (elems (heap w) (mappers a)) args /\
    calls (events_of (callDynamicFunc a ctx log result (Some comp) f args) w)
    = [(rawFunc, args', o)].
Proof.
  intros Hnorm. rewrite callDynamicFunc_events. unfold invocation_events.
  rewrite Hnorm. cbv zeta.
  destruct (as_Func f); eexists _, _; (split; [reflexivity|]);
    rewrite !calls_app; reflexivity.
Qed.

(** X9: once [f] is a [*argmapper.Func] and the component is there, an
    invocation dispatches exactly one call, to that function, with the
    caller's arguments followed by the App's converters, the typed values
    (context, logger, source, job information, directory, UI) and the
    labels of the component under the name "labels". *)
Theorem callDynamicFunc_calls_once a ctx log result comp f args w rawFunc :
  normalize f log = inl rawFunc ->
  exists o,
    calls (events_of (callDynamicFunc a ctx log result (Some comp) f args) w)
    = [(rawFunc,
        args ++ [ConverterFunc (elems (heap w) (mappers a));
                 Typed [TContext ctx; TLogger log; TSource (source a);
                        TJobInfo (jobInfo a); TDir (dir a); TUI (UI a)];
                 Named "labels" {| ls_Labels := c_labels comp |}],
        o)].
Proof.
  intros Hnorm.
  destruct (callDynamicFunc_calls_once_aux a ctx log result comp f args w rawFunc Hnorm)
    as (args' & o & -> & Hcalls).
  exists o. exact Hcalls.
Qed.

(** X10: [NewFunc] is consulted exactly when [f] is not already a
    [*argmapper.Func], and then once, on [f]. *)
Theorem callDynamicFunc_uses_Func_as_is a ctx log result c f args w :
  newfuncs (events_of (callDynamicFunc a ctx log result c f args) w)
  = match as_Func f with
    | Some _ => []
    | None => [f]
    end.
Proof.
  rewrite callDynamicFunc_events. unfold invocation_events, normalize.
  destruct (as_Func f) as [rf|].
  - cbv zeta. destruct c; reflexivity.
  - destruct (argmapper_NewFunc f log) as [rf|err]; [|reflexivity].
    cbv zeta. destruct c; reflexivity.
Qed.

(** X11: an error of the call is returned as it is, with no value,
    whether a result type is expected or not. *)
Theorem callDynamicFunc_propagates_call_error a ctx log result c f args w
    rawFunc args' r err :
  (rawFunc, args', CallReturns r)
    ∈ calls (events_of (callDynamicFunc a ctx log result c f args) w) ->
  res_Err r = Some err ->
  exists w', callDynamicFunc a ctx log result c f args w = Returned (Nil, Some err) w'.
Proof.
  intros Hcall Herr.
  rewrite (callDynamicFunc_called _ _ _ _ _ _ _ _ _ _ _ Hcall).
  unfold after_call. rewrite Herr. simpl. eauto.
Qed.

Lemma callDynamicFunc_NewFunc_failure_aux a ctx log result c f args w err :
  normalize f log = inr err ->
  exists w', callDynamicFunc a ctx log result c f args w = Returned (Nil, Some err) w'.
Proof.
  intros Hnorm.
  destruct (callDynamicFunc_run a ctx log result c f args w)
    as [(err' & Hf & Hn & Hrun)|(rf & pre & w0 & Hok & _)].
  - unfold normalize in Hnorm. rewrite Hf, Hn in Hnorm. injection Hnorm as ->. eauto.
  - unfold normalize in Hnorm. destruct Hok as [Hf|(Hf & Hn)].
    + by rewrite Hf in Hnorm.
    + rewrite Hf, Hn in Hnorm. discriminate.
Qed.

(** X12: when [NewFunc] rejects [f], its error is returned at once:
    nothing is called, no status is opened, and the component is not
    looked at. *)
Theorem callDynamicFunc_NewFunc_failure a ctx log result c f args w err :
  normalize f log = inr err ->
  (exists w', callDynamicFunc a ctx log result c f args w = Returned (Nil, Some err) w') /\
  events_of (callDynamicFunc a ctx log result c f args) w = [EvNewFunc f (inr err)].
Proof.
  intros Hnorm. split; [by apply callDynamicFunc_NewFunc_failure_aux|].
  rewrite callDynamicFunc_events. unfold invocation_events. by rewrite Hnorm.
Qed.

(** How an invocation ends, from what [f] is, whether the component is
    there, and what the call did. *)
Lemma callDynamicFunc_outcome a ctx log result c f args w :
  let run := callDynamicFunc a ctx log result c f args in
  match normalize f log with
  | inr err => run w = Returned (Nil, Some err) (final (run w))
  | inl rawFunc =>
      match c with
      | None =>
          run w = Panicked "invalid memory address or nil pointer dereference"
                    (final (run w))
      | Some comp =>
          exists args' o,
            calls (events_of run w) = [(rawFunc, args', o)] /\
            run w = finish (after_call result o) (final (run w))
      end
  end.
Proof.
  cbv zeta. destruct (normalize f log) as [rf|err] eqn:Hnorm.
  - destruct c as [comp|].
    + destruct (callDynamicFunc_calls_once_aux a ctx log result comp f args w rf Hnorm)
        as (args' & o & _ & Hcalls).
      exists args', o. split; [exact Hcalls|].
      apply (callDynamicFunc_called _ _ _ _ _ _ _ _ rf args' o).
      rewrite Hcalls. apply list_elem_of_here.
    + destruct (callDynamicFunc_run a ctx log result None f args w)
        as [(err' & Hf & Hn & Hrun)|(rf' & pre & w0 & Hok & _ & _ & _ & _ & Hrun)].
      * unfold normalize in Hnorm. rewrite Hf, Hn in Hnorm. discriminate.
      * pose proof (with_status_body a ctx log result None rf' args w0) as Hs.
        cbv zeta in Hs. destruct Hs as (_ & Hs).
        rewrite Hrun. exact Hs.
  - destruct (callDynamicFunc_NewFunc_failure_aux a ctx log result c f args w err Hnorm)
      as (w' & Hrun).
    rewrite Hrun. reflexivity.
Qed.

(** A call in the events of an invocation is the call of the source. *)
Lemma callDynamicFunc_call_shape a ctx log result c f args w rawFunc args' o :
  (rawFunc, args', o)
    ∈ calls (events_of (callDynamicFunc a ctx log result c f args) w) ->
  exists comp,
    c = Some comp /\ normalize f log = inl rawFunc /\
    args' = call_args a ctx log (c_labels comp) (elems (heap w) (mappers a)) args.
Proof.
  rewrite callDynamicFunc_events. unfold invocation_events.
  destruct (normalize f log) as [rf|err] eqn:Hnorm.
  - cbv zeta. destruct c as [comp|].
    + rewrite !calls_app.
      destruct (as_Func f); simpl; intros Hin;
        apply list_elem_of_singleton in Hin; injection Hin as -> -> _; eauto.
    + rewrite !calls_app. destruct (as_Func f); simpl; intros Hin;
        by apply elem_of_nil in Hin.
  - simpl. intros Hin. by apply elem_of_nil in Hin.
Qed.

(** X13: an invocation on an App built by [newApp], in the world the
    construction left or in any later world in which the App's slice of
    converters still holds the elements the construction left, hands to
    the call the project's converters followed by the converters of the
    plugins loaded during the construction, in the order of loading. *)
Theorem newApp_converters_reach_the_call ctx p cfg w app w1
    w2 ctx' log result c f args rawFunc args' o :
  newApp ctx p cfg w = Returned (Some app, None) w1 ->
  elems (heap w2) (mappers app) = elems (heap w1) (mappers app) ->
  (rawFunc, args', o)
    ∈ calls (events_of (callDynamicFunc app ctx' log result c f args) w2) ->
  ConverterFunc (elems (heap w) (p_mappers p)
                 ++ exported (events_of (newApp ctx p cfg) w)) ∈ args'.
Proof.
  intros Hrun Helems Hcall.
  destruct (newApp_success _ _ _ _ _ _ Hrun) as (tr & -> & Hpost).
  destruct (np_result _ _ _ _ _ _ Hpost) as (_ & Hel & _).
  destruct (callDynamicFunc_call_shape _ _ _ _ _ _ _ _ _ _ _ Hcall)
    as (comp & _ & _ & ->).
  unfold call_args. rewrite Helems, Hel.
  apply elem_of_app. right. apply list_elem_of_here.
Qed.

(** X14: with an expected result type, [callDynamicFunc] never returns a
    value that was not checked: a value returned without error is the
    first output of the one call dispatched, and its dynamic type
    implements the element type of the expected type. *)
Theorem callDynamicFunc_returned_value_implements a ctx log rt v c f args w raw w' :
  callDynamicFunc a ctx log (Boxed rt v) c f args w = Returned (raw, None) w' ->
  exists it rawT rv rawFunc args' r,
    raw = Boxed rawT rv /\
    type_Elem rt = Some it /\
    type_Implements rawT it = Some true /\
    calls (events_of (callDynamicFunc a ctx log (Boxed rt v) c f args) w)
      = [(rawFunc, args', CallReturns r)] /\
    res_Err r = None /\
    res_out r !! 0 = Some raw.
Proof.
  intros Hrun.
  pose proof (callDynamicFunc_outcome a ctx log (Boxed rt v) c f args w) as Hout.
  cbv zeta in Hout. rewrite Hrun in Hout.
  destruct (normalize f log) as [rf|err]; [|discriminate].
  destruct c as [comp|]; [|discriminate].
  destruct Hout as (args' & o & Hcalls & Hfin).
  unfold after_call in Hfin.
  destruct o as [r|msg]; [|discriminate].
  destruct (res_Err r) eqn:Herr; [discriminate|].
  destruct (res_out r !! 0) as [raw0|] eqn:Hraw; [|discriminate].
  unfold verify in Hfin.
  destruct (type_Elem rt) as [it|] eqn:Hel; [|discriminate].
  destruct raw0 as [|rawT rv]; [discriminate|].
  destruct (type_Implements rawT it) as [[|]|] eqn:Himp; try discriminate.
  simpl in Hfin. injection Hfin as ->.
  exists it, rawT, rv, rf, args', r. repeat split; auto.
Qed.

(** X15: when a result type is expected and the call produced the nil
    value, [callDynamicFunc] panics: there is no type to check against
    the interface. *)
Theorem callDynamicFunc_nil_value_panics a ctx log rt v c f args w
    rawFunc args' r :
  (rawFunc, args', CallReturns r)
    ∈ calls (events_of (callDynamicFunc a ctx log (Boxed rt v) c f args) w) ->
  res_Err r = None ->
  res_out r !! 0 = Some Nil ->
  panics (callDynamicFunc a ctx log (Boxed rt v) c f args w) = true.
Proof.
  intros Hcall Herr Hout.
  rewrite (callDynamicFunc_called _ _ _ _ _ _ _ _ _ _ _ Hcall).
  unfold after_call. rewrite Herr, Hout. unfold verify.
  destruct (type_Elem rt); reflexivity.
Qed.

End MoreInvocation.

(** ** The command [server config-set] *)

Section CliFacts.
Context `{C : CliEnv}.

(** X16: [Run] exits with 0 or 1, and with 0 exactly when [Init] and the
    request to the server both succeed. *)
Theorem Run_exit_code (c : ServerConfigSetCommand) (args : list string) :
  let init := base_Init args (Flags c) (flagAdvertiseAddr c) in
  let code := snd (fst (Run c args)) in
  (code = 0%Z \/ code = 1%Z) /\
  (code = 0%Z <->
   fst init = None /\
   client_SetServerConfig {| Config := {| AdvertiseAddrs := [snd init] |} |} = None).
Proof.
  cbv zeta. unfold Run.
  destruct (base_Init args (Flags c) (flagAdvertiseAddr c)) as [[err|] addr]; simpl.
  - split; [by right|]. split; [done|]. intros [? _]. done.
  - destruct (client_SetServerConfig _) as [err|]; simpl.
    + split; [by right|]. split; [done|]. intros [_ ?]. done.
    + split; [by left|]. done.
Qed.

(** X17: when [Init] fails, [Run] exits with 1 and does nothing more: no
    request is sent and nothing is written to the UI. *)
Theorem Run_Init_failure (c : ServerConfigSetCommand) (args : list string) err :
  fst (base_Init args (Flags c) (flagAdvertiseAddr c)) = Some err ->
  snd (fst (Run c args)) = 1%Z /\
  snd (Run c args) = [CliInit args (Flags c)].
Proof. intros Hinit. unfold Run. rewrite Hinit. done. Qed.


End CliFacts.

Lemma Run_Init_failure_witness :
  snd (fst (Run (C:=demo_cli)
              {| flagAdvertiseAddr := {| Addr := ""; Insecure := false |} |} [])) = 1%Z.
Proof.
  exact (proj1 (Run_Init_failure (C:=demo_cli)
                  {| flagAdvertiseAddr := {| Addr := ""; Insecure := false |} |} []
                  (OpaqueError 1) eq_refl)).
Defined.


(** ** The further properties in the small installation *)

Lemma newApp_directory_failure_witness :
  events_of (newApp (E:=demo_env_failing) demo_ctx demo_project_bare (demo_cfg ""))
    demo_world
  = [EvDirApp "web" (inr (OpaqueError 9))].
Proof.
  exact (proj2 (newApp_directory_failure (E:=demo_env_failing) demo_ctx
                  demo_project_bare (demo_cfg "") demo_world (OpaqueError 9) eq_refl)).
Defined.

Lemma newApp_identity_witness :
  newApp (E:=demo_env) demo_ctx (demo_project "/src/shop" ["alpha"]) (demo_cfg "")
    demo_world = Returned (Some demo_app, None) demo_app_world /\
  Ref demo_app = {| Application := "web"; Project_ := "shop" |}.
Proof.
  assert (H : newApp (E:=demo_env) demo_ctx (demo_project "/src/shop" ["alpha"])
                (demo_cfg "") demo_world
              = Returned (Some demo_app, None) demo_app_world).
  { vm_compute. reflexivity. }
  split; [exact H|].
  exact (proj1 (newApp_identity _ _ _ _ _ _ H)).
Defined.

Lemma newApp_without_mapper_factory_witness :
  exists app w1,
    newApp (E:=demo_env) demo_ctx demo_project_bare (demo_cfg "") demo_world
      = Returned (Some app, None) w1 /\
    closers app = [].
Proof.
  destruct (newApp_without_mapper_factory (E:=demo_env) demo_ctx demo_project_bare
              (demo_cfg "") demo_world {| adir_id := 1 |} eq_refl eq_refl)
    as (app & w1 & Hrun & _ & Hcl & _).
  exists app, w1. split; [exact Hrun|exact Hcl].
Defined.

Lemma newApp_loads_in_registration_order_witness :
  started_names
    (events_of (newApp (E:=demo_env) demo_ctx
                  (demo_project "/src/shop" ["alpha"; "gamma"]) (demo_cfg ""))
       demo_world)
  = ["alpha"; "gamma"].
Proof.
  assert (H : exists app w1,
             newApp (E:=demo_env) demo_ctx
               (demo_project "/src/shop" ["alpha"; "gamma"]) (demo_cfg "") demo_world
             = Returned (Some app, None) w1).
  { eexists _, _. vm_compute. reflexivity. }
  destruct H as (app & w1 & H).
  exact (newApp_loads_in_registration_order (E:=demo_env) demo_ctx
           (demo_project "/src/shop" ["alpha"; "gamma"]) (demo_cfg "") demo_world
           {| Registered := ["alpha"; "gamma"] |} app w1 eq_refl H).
Defined.

Lemma newApp_stops_at_first_failure_witness :
  failed (events_of (newApp (E:=demo_env) demo_ctx
                       (demo_project "/src/shop" ["alpha"; "beta"; "gamma"])
                       (demo_cfg "")) demo_world)
  = [("beta", OpaqueError 7)].
Proof.
  assert (H : ("beta", OpaqueError 7) ∈
    failed (events_of (newApp (E:=demo_env) demo_ctx
                         (demo_project "/src/shop" ["alpha"; "beta"; "gamma"])
                         (demo_cfg "")) demo_world)).
  { vm_compute. apply list_elem_of_here. }
  exact (proj2 (newApp_stops_at_first_failure (E:=demo_env) demo_ctx
                  (demo_project "/src/shop" ["alpha"; "beta"; "gamma"]) (demo_cfg "")
                  demo_world {| Registered := ["alpha"; "beta"; "gamma"] |}
                  "beta" (OpaqueError 7) eq_refl H)).
Defined.

Lemma demo_project_allocated root names :
  allocated (heap demo_world) (p_mappers (demo_project root names)).
Proof.
  intros q Hq. injection Hq as <-. apply elem_of_dom. eexists. reflexivity.
Defined.

Lemma newApp_leaves_project_chain_witness :
  elems (heap (final (newApp (E:=demo_env) demo_ctx
                        (demo_project "/src/shop" ["alpha"]) (demo_cfg "") demo_world)))
    (p_mappers (demo_project "/src/shop" ["alpha"]))
  = elems (heap demo_world) (p_mappers (demo_project "/src/shop" ["alpha"])).
Proof.
  exact (newApp_leaves_project_chain (E:=demo_env) demo_ctx
           (demo_project "/src/shop" ["alpha"]) (demo_cfg "") demo_world
           (demo_project_allocated "/src/shop" ["alpha"])).
Defined.

Lemma newApp_apps_do_not_share_witness :
  elems (heap (final (newApp (E:=demo_env) demo_ctx
                        (demo_project "/src/shop" ["gamma"]) (demo_cfg "api")
                        demo_app_world)))
    (mappers demo_app)
  = elems (heap demo_app_world) (mappers demo_app).
Proof.
  assert (H : newApp (E:=demo_env) demo_ctx (demo_project "/src/shop" ["alpha"])
                (demo_cfg "") demo_world
              = Returned (Some demo_app, None) demo_app_world).
  { vm_compute. reflexivity. }
  exact (proj1 (newApp_apps_do_not_share (E:=demo_env) _ _ _ _ _ _ demo_ctx
                  (demo_project "/src/shop" ["gamma"]) (demo_cfg "api") H)).
Defined.

Lemma callDynamicFunc_calls_once_witness :
  exists o,
    calls (events_of (callDynamicFunc (E:=demo_env) demo_app demo_ctx demo_log Nil
                        (Some demo_component) (Boxed (RType 0) 1) [])
             demo_app_world)
    = [(FuncAt 1,
        [] ++ [ConverterFunc (elems (heap demo_app_world) (mappers demo_app));
               Typed [TContext demo_ctx; TLogger demo_log; TSource (source demo_app);
                      TJobInfo (jobInfo demo_app); TDir (dir demo_app);
                      TUI (UI demo_app)];
               Named "labels" {| ls_Labels := c_labels demo_component |}],
        o)].
Proof.
  exact (callDynamicFunc_calls_once (E:=demo_env) demo_app demo_ctx demo_log Nil
           demo_component (Boxed (RType 0) 1) [] demo_app_world (FuncAt 1) eq_refl).
Defined.

Lemma callDynamicFunc_propagates_call_error_witness :
  exists w',
    callDynamicFunc (E:=demo_env) demo_app demo_ctx demo_log (Boxed (RType 1) 0)
      (Some demo_component) (Boxed (RType 0) 3) [] demo_app_world
    = Returned (Nil, Some (OpaqueError 4)) w'.
Proof.
  apply (callDynamicFunc_propagates_call_error (E:=demo_env) demo_app demo_ctx
           demo_log (Boxed (RType 1) 0) (Some demo_component) (Boxed (RType 0) 3) []
           demo_app_world (FuncAt 3) demo_call_args
           {| res_Err := Some (OpaqueError 4); res_out := [] |} (OpaqueError 4)).
  - vm_compute. apply list_elem_of_here.
  - reflexivity.
Defined.

Lemma callDynamicFunc_NewFunc_failure_witness :
  events_of (callDynamicFunc (E:=demo_env) demo_app demo_ctx demo_log Nil None
               (Boxed (RType 4) 0) []) demo_app_world
  = [EvNewFunc (Boxed (RType 4) 0) (inr (OpaqueError 3))].
Proof.
  exact (proj2 (callDynamicFunc_NewFunc_failure (E:=demo_env) demo_app demo_ctx
                  demo_log Nil None (Boxed (RType 4) 0) [] demo_app_world
                  (OpaqueError 3) eq_refl)).
Defined.

Lemma newApp_converters_reach_the_call_witness :
  heap demo_later_world <> heap demo_app_world /\
  ConverterFunc
    (elems (heap demo_world) (p_mappers (demo_project "/src/shop" ["alpha"]))
     ++ exported (events_of (newApp (E:=demo_env) demo_ctx
                               (demo_project "/src/shop" ["alpha"]) (demo_cfg ""))
                    demo_world))
  ∈ demo_call_args.
Proof.
  split.
  { intros H. apply (f_equal (fun h : gmap nat (list FuncPtr) => size h)) in H.
    vm_compute in H. discriminate. }
  assert (H : newApp (E:=demo_env) demo_ctx (demo_project "/src/shop" ["alpha"])
                (demo_cfg "") demo_world
              = Returned (Some demo_app, None) demo_app_world).
  { vm_compute. reflexivity. }
  assert (Hel : elems (heap demo_later_world) (mappers demo_app)
                = elems (heap demo_app_world) (mappers demo_app)).
  { vm_compute. reflexivity. }
  apply (newApp_converters_reach_the_call (E:=demo_env) _ _ _ _ _ _
           demo_later_world demo_ctx demo_log Nil (Some demo_component)
           (Boxed (RType 0) 1) [] (FuncAt 1) demo_call_args
           (CallReturns {| res_Err := None; res_out := [Boxed (RType 3) 5] |})
           H Hel).
  vm_compute. apply list_elem_of_here.
Defined.

Lemma callDynamicFunc_returned_value_implements_witness :
  exists it rawT rv,
    Boxed (RType 3) 5 = Boxed rawT rv /\
    type_Elem (Env:=demo_env) (RType 1) = Some it /\
    type_Implements (Env:=demo_env) rawT it = Some true.
Proof.
  assert (H : callDynamicFunc (E:=demo_env) demo_app demo_ctx demo_log
                (Boxed (RType 1) 0) (Some demo_component) (Boxed (RType 0) 1) []
                demo_app_world
              = Returned (Boxed (RType 3) 5, None)
                  (final (callDynamicFunc (E:=demo_env) demo_app demo_ctx demo_log
                            (Boxed (RType 1) 0) (Some demo_component)
                            (Boxed (RType 0) 1) [] demo_app_world))).
  { vm_compute. reflexivity. }
  destruct (callDynamicFunc_returned_value_implements (E:=demo_env) _ _ _ _ _ _ _ _ _ _ _ H)
    as (it & rawT & rv & _ & _ & _ & H1 & H2 & H3 & _).
  exists it, rawT, rv. auto.
Defined.

Lemma callDynamicFunc_nil_value_panics_witness :
  panics (callDynamicFunc (E:=demo_env_failing) demo_app demo_ctx demo_log
            (Boxed (RType 1) 0) (Some demo_component) (Boxed (RType 0) 1) []
            demo_world) = true.
Proof.
  apply (callDynamicFunc_nil_value_panics (E:=demo_env_failing) demo_app demo_ctx
           demo_log (RType 1) 0 (Some demo_component) (Boxed (RType 0) 1) []
           demo_world (FuncAt 1)
           (call_args demo_app demo_ctx demo_log ∅
              (elems (heap demo_world) (mappers demo_app)) [])
           {| res_Err := None; res_out := [Nil] |}).
  - vm_compute. apply list_elem_of_here.
  - reflexivity.
  - reflexivity.
Defined.
